(** * Budget alert throttle (cloud-functions/main.py): a shallow embedding

    The Cloud Function [subscribe] receives a budget alert, derives the
    project from the alert's display name, asks Firestore whether the
    project was already notified in the current calendar month (Asia/Bangkok)
    and, if not, posts a card to a Microsoft Teams webhook.

    Layout of the development:
    - [PyStr]      Python [str] operations used by the source ([in], [split]);
    - [Py]         exceptions and results;
    - [Num]        JSON numbers as Python sees them ([int] and binary64 [float]);
    - [Calendar]   aware datetimes, the proleptic Gregorian calendar, the
                   Asia/Bangkok zone;
    - [World]      Firestore, the webhook, the environment of an invocation
                   and the monad of computations over them;
    - the functions of main.py, under their own names;
    - the properties. *)

From Stdlib Require Import ZArith Lia Bool DecimalString.
From Stdlib Require Import SpecFloat.
From stdpp Require Import gmap strings.

Open Scope string_scope.

(** ** Python strings

    A Python [str] is modelled by the bytes of its UTF-8 encoding.  UTF-8 is
    self-synchronising, so searching for an ASCII needle in the encoding
    finds exactly the occurrences that Python finds among code points. *)
Module PyStr.

(** [s.startswith(pre)] *)
Fixpoint startswith (pre s : string) : bool :=
  match pre, s with
  | EmptyString, _ => true
  | String a pre', String b s' => if decide (a = b) then startswith pre' s' else false
  | String _ _, EmptyString => false
  end.

(** [s.find(sub)], with [None] for Python's [-1]. *)
Fixpoint find (sub s : string) : option nat :=
  if startswith sub s then Some 0
  else match s with
       | EmptyString => None
       | String _ s' => S <$> find sub s'
       end.

(** [sub in s] *)
Definition contains (sub s : string) : bool := bool_decide (is_Some (find sub s)).

(** [s[:n]] and [s[n:]] *)
Fixpoint take (n : nat) (s : string) : string :=
  match n, s with
  | S n', String a s' => String a (take n' s')
  | _, _ => EmptyString
  end.

Fixpoint drop (n : nat) (s : string) : string :=
  match n, s with
  | S n', String _ s' => drop n' s'
  | _, _ => s
  end.

(** The loop of [s.split(sep)] for a non-empty [sep]: cut at the leftmost
    occurrence and go on after it.  Every round consumes at least one
    character, so [S (length s)] rounds are enough. *)
Fixpoint split_from (fuel : nat) (sep s : string) : list string :=
  match fuel with
  | O => [s]
  | S fuel' =>
      match find sep s with
      | None => [s]
      | Some i => take i s :: split_from fuel' sep (drop (i + String.length sep) s)
      end
  end.

(** [s.split(sep)]: [None] stands for the [ValueError] Python raises on an
    empty separator. *)
Definition split (sep s : string) : option (list string) :=
  match sep with
  | EmptyString => None
  | _ => Some (split_from (S (String.length s)) sep s)
  end.

(** What "occurs at index [i]" means, independently of [find]. *)
Definition occurs_at (sub s : string) (i : nat) : Prop :=
  ∃ pre post, s = pre +:+ sub +:+ post ∧ String.length pre = i.

Definition occurs (sub s : string) : Prop := ∃ i, occurs_at sub s i.

Definition first_occurrence (sub s : string) (i : nat) : Prop :=
  occurs_at sub s i ∧ ∀ j, occurs_at sub s j → (i ≤ j)%nat.

End PyStr.

(** ** Exceptions and results *)
Module Py.

Inductive exn : Type :=
| InvalidAlertNameException (alert_name : string)
| ValueError
| IndexError
| KeyError (key : string)
| OverflowError
| DefaultCredentialsError
| GoogleAPIError
| NotFound
| RequestException.

Inductive result (A : Type) : Type :=
| Ok (a : A)
| Raise (e : exn).
Global Arguments Ok {A} a.
Global Arguments Raise {A} e.

Definition is_ok {A} (r : result A) : bool :=
  match r with Ok _ => true | Raise _ => false end.

End Py.
Export Py.

Definition marker : string := "-bigquery-notification".

(** main.py, lines 168-185 *)
Definition get_alert_name (alert_name : string) : result string :=
  if PyStr.contains marker alert_name then
    match PyStr.split marker alert_name with
    | None => Raise ValueError
    | Some parts =>
        match parts !! 0%nat with
        | Some project_to_assign => Ok project_to_assign
        | None => Raise IndexError
        end
    end
  else Raise (InvalidAlertNameException alert_name).


(** ** JSON numbers

    [json.loads] turns a JSON number into an [int] (no fraction, no exponent)
    or into a [float] (IEEE 754 binary64).  Floats are the
    [spec_float]s of the Standard Library at precision 53 and maximal
    exponent 1024, with its correctly rounded operations. *)
Module Num.

Definition prec : Z := 53.
Definition emax : Z := 1024.

Inductive number : Type :=
| Int (n : Z)
| Float (f : spec_float).

(** [float(n)]: round to nearest even, [OverflowError] beyond the range. *)
Definition float_of_int (n : Z) : result spec_float :=
  match binary_normalize prec emax n 0 false with
  | S754_infinity _ => Raise OverflowError
  | f => Ok f
  end.

(** The literals [0.75] and [1.0]. *)
Definition f0_75 : spec_float := Eval vm_compute in binary_normalize prec emax 3 (-2) false.
Definition f1_0 : spec_float := Eval vm_compute in binary_normalize prec emax 1 0 false.

(** Python compares an [int] with a [float] exactly, not after conversion. *)
Definition compare_int_float (n : Z) (f : spec_float) : option comparison :=
  match f with
  | S754_nan => None
  | S754_infinity s => Some (if s then Gt else Lt)
  | S754_zero _ => Some (n ?= 0)%Z
  | S754_finite s m e =>
      let v := if s then Z.neg m else Z.pos m in
      Some (if (0 <=? e)%Z then (n ?= v * 2 ^ e)%Z else (n * 2 ^ (- e) ?= v)%Z)
  end.

Definition compare (x y : number) : option comparison :=
  match x, y with
  | Int a, Int b => Some (a ?= b)%Z
  | Float a, Float b => SFcompare a b
  | Int a, Float b => compare_int_float a b
  | Float a, Int b => CompOpp <$> compare_int_float b a
  end.

(** [x <= y] and [x == y]; both are [False] when a NaN is involved. *)
Definition le (x y : number) : bool :=
  match compare x y with
  | Some (Lt | Eq) => true
  | _ => false
  end.

Definition eqb (x y : number) : bool :=
  match compare x y with
  | Some Eq => true
  | _ => false
  end.

(** [x * k] for an [int] literal [k]. *)
Definition mul_int (x : number) (k : Z) : result number :=
  match x with
  | Int n => Ok (Int (n * k))
  | Float f =>
      match float_of_int k with
      | Ok fk => Ok (Float (SFmul prec emax f fk))
      | Raise e => Raise e
      end
  end.

Definition decimal (n : Z) : string := NilZero.string_of_uint (N.to_uint (Z.to_N n)).

(** The integer nearest to [m * 2^e], ties to even: the digits that a
    correctly rounded [.0f] prints. *)
Definition round_half_even (m : positive) (e : Z) : Z :=
  if (0 <=? e)%Z then Z.pos m * 2 ^ e
  else
    let d := (2 ^ (- e))%Z in
    let q := (Z.pos m / d)%Z in
    let r := (Z.pos m mod d)%Z in
    match (2 * r ?= d)%Z with
    | Lt => q
    | Gt => (q + 1)%Z
    | Eq => if Z.even q then q else (q + 1)%Z
    end.

Definition format_0f_float (f : spec_float) : string :=
  match f with
  | S754_nan => "nan"
  | S754_infinity s => if s then "-inf" else "inf"
  | S754_zero s => if s then "-0" else "0"
  | S754_finite s m e => (if s then "-" else "") +:+ decimal (round_half_even m e)
  end.

(** ["{:.0f}".format(x)]: an [int] is converted to [float] first. *)
Definition format_0f (x : number) : result string :=
  match x with
  | Int n =>
      match float_of_int n with
      | Ok f => Ok (format_0f_float f)
      | Raise e => Raise e
      end
  | Float f => Ok (format_0f_float f)
  end.

(** [str(n)] for an [int]. *)
Definition str_int (n : Z) : string :=
  match n with
  | Z.neg p => "-" +:+ decimal (Z.pos p)
  | _ => decimal n
  end.

End Num.
Export Num.

(** ** Aware datetimes

    A [datetime] carries its civil fields and the offset of its zone, as
    Python's does; [year] and [month] are fields, read as the source reads
    them.  Instants are counted in microseconds since 1970-01-01T00:00:00Z,
    the resolution of [pendulum.now] and of the [%f] directive. *)
Module Calendar.

Local Open Scope Z_scope.

Record datetime : Type := {
  year : Z;
  month : Z;
  day : Z;
  hour : Z;
  minute : Z;
  second : Z;
  microsecond : Z;
  utcoffset : Z  (* seconds east of UTC *)
}.

(** The proleptic Gregorian calendar by 400-year eras of 146097 days that
    start on a first of March, so that the leap day comes last.
    [date_in_era] splits a day of the era into year of the era, month and
    day; [day_in_era] counts it back. *)
Definition date_in_era (doe : Z) : Z * Z * Z :=
  let yoe := (doe - doe / 1460 + doe / 36524 - doe / 146096) / 365 in
  let doy := doe - (365 * yoe + yoe / 4 - yoe / 100) in
  let mp := (5 * doy + 2) / 153 in
  let d := doy - (153 * mp + 2) / 5 + 1 in
  let m := if mp <? 10 then mp + 3 else mp - 9 in
  (yoe, m, d).

Definition day_in_era (yoe m d : Z) : Z :=
  let doy := (153 * (if 2 <? m then m - 3 else m + 9) + 2) / 5 + d - 1 in
  yoe * 365 + yoe / 4 - yoe / 100 + doy.

(** Day number (0 = 1970-01-01) to civil date and back. *)
Definition civil_from_days (z : Z) : Z * Z * Z :=
  let z := z + 719468 in
  let '(yoe, m, d) := date_in_era (z mod 146097) in
  let y := yoe + z / 146097 * 400 in
  (if m <=? 2 then y + 1 else y, m, d).

Definition days_from_civil (y m d : Z) : Z :=
  let y := if m <=? 2 then y - 1 else y in
  y / 400 * 146097 + day_in_era (y mod 400) m d - 719468.

Definition us_per_second : Z := 1000000.
Definition us_per_day : Z := 86400 * us_per_second.

(** The datetime that shows instant [t] on a clock [offset] seconds east. *)
Definition of_instant (offset t : Z) : datetime :=
  let local := t + offset * us_per_second in
  let '(y, m, d) := civil_from_days (local / us_per_day) in
  let rem := local mod us_per_day in
  {| year := y; month := m; day := d;
     hour := rem / (3600 * us_per_second);
     minute := rem / (60 * us_per_second) mod 60;
     second := rem / us_per_second mod 60;
     microsecond := rem mod us_per_second;
     utcoffset := offset |}.

(** The instant an aware datetime denotes. *)
Definition to_instant (d : datetime) : Z :=
  (days_from_civil (year d) (month d) (day d) * 86400
   + hour d * 3600 + minute d * 60 + second d - utcoffset d) * us_per_second
  + microsecond d.

(** Asia/Bangkok in the tz database: local mean time (+06:42:04) until
    1920-04-01, +07:00 ever since. *)
Definition bangkok_offset (t : Z) : Z :=
  if t <? -1570084924 * us_per_second then 24124 else 25200.

(** [d.in_tz("Asia/Bangkok")] *)
Definition in_tz_bangkok (d : datetime) : datetime :=
  let t := to_instant d in of_instant (bangkok_offset t) t.

(** [pendulum.now("Asia/Bangkok")] when the clock reads [t]. *)
Definition now_bangkok (t : Z) : datetime := of_instant (bangkok_offset t) t.

(** A Firestore timestamp as the client hands it back: aware, in UTC. *)
Definition utc_of_instant (t : Z) : datetime := of_instant 0 t.

(** [d.strftime("%Y-%m-%dT%H:%M:%S.%f%z")]: the text spells the civil fields
    and the offset; it is kept as those numbers. *)
Record iso_text : Type := {
  text_year : Z; text_month : Z; text_day : Z;
  text_hour : Z; text_minute : Z; text_second : Z; text_fraction : Z;
  text_offset : Z
}.

Definition strftime (d : datetime) : iso_text :=
  {| text_year := year d; text_month := month d; text_day := day d;
     text_hour := hour d; text_minute := minute d; text_second := second d;
     text_fraction := microsecond d; text_offset := utcoffset d |}.

(** [pendulum.parse(text, tz="UTC")]: an offset written in the text wins
    over the [tz] argument. *)
Definition pendulum_parse (s : iso_text) : datetime :=
  {| year := text_year s; month := text_month s; day := text_day s;
     hour := text_hour s; minute := text_minute s; second := text_second s;
     microsecond := text_fraction s; utcoffset := text_offset s |}.

(** A civil date and time on the Bangkok clock of today (+07:00). *)
Definition bangkok (y m d hh mm ss : Z) : datetime :=
  {| year := y; month := m; day := d; hour := hh; minute := mm; second := ss;
     microsecond := 0; utcoffset := 25200 |}.

(** The check that [day_in_era] undoes [date_in_era] on one day of the era,
    with the year of the era in range. *)
Definition era_day_ok (doe : Z) : bool :=
  let '(yoe, m, d) := date_in_era doe in
  (0 <=? yoe) && (yoe <? 400) && (day_in_era yoe m d =? doe).

(** [era_span_ok depth lo]: every day of the era among the [2 ^ depth] days
    from [lo] on passes [era_day_ok]. *)
Fixpoint era_span_ok (depth : nat) (lo : Z) : bool :=
  match depth with
  | O => (146097 <=? lo) || era_day_ok lo
  | S k => era_span_ok k lo && era_span_ok k (lo + 2 ^ Z.of_nat k)
  end.

End Calendar.
Export Calendar.

(** ** The world outside the function

    Two things outlive an invocation: the Firestore collection
    [budget-alert-notification-stats], a map from document ids to documents
    (a document maps field names to stored instants), and the cards posted
    to the Teams webhook.  What an invocation cannot control is gathered in
    [env]: the reading of the clock, the configured webhook, and whether the
    Firestore client, its reads, its writes and the HTTP post go through. *)
Module World.

Record teams_card : Type := {
  card_url : string;
  themeColor : string;
  summary : string;
  activityTitle : string;
  activitySubtitle : string
}.

Record world : Type := {
  firestore : gmap string (gmap string Z);
  teams : list teams_card
}.

Record env : Type := {
  clock : Z;
  webhook_url : string;
  client_ok : bool;
  get_ok : bool;
  write_ok : bool;
  post_status : option Z
}.

Definition store_available (e : env) : bool := client_ok e && get_ok e && write_ok e.

(** Computations that read and write the world and may raise. *)
Definition M (A : Type) : Type := world → result A * world.

Definition ret {A} (a : A) : M A := λ w, (Ok a, w).

Definition raise {A} (e : exn) : M A := λ w, (Raise e, w).

Definition lift {A} (r : result A) : M A := λ w, (r, w).

Definition bind {A B} (m : M A) (k : A → M B) : M B :=
  λ w, match m w with
       | (Ok a, w') => k a w'
       | (Raise e, w') => (Raise e, w')
       end.

(** [try: body / except Exception as e: handler]: what [body] did to the
    world before it raised stays done. *)
Definition try_except {A} (body : M A) (handler : exn → M A) : M A :=
  λ w, match body w with
       | (Ok a, w') => (Ok a, w')
       | (Raise e, w') => handler e w'
       end.

Notation "'do' x <- m ; k" := (bind m (λ x, k))
  (at level 10, x name, m at level 100, k at level 200).

(** [firestore.Client()] *)
Definition firestore_Client (e : env) : M unit :=
  if client_ok e then ret tt else raise DefaultCredentialsError.

(** [ref.get()]: the snapshot, [None] when the document does not exist. *)
Definition document_get (e : env) (ref : string) : M (option (gmap string Z)) :=
  λ w, if get_ok e then (Ok (firestore w !! ref), w) else (Raise GoogleAPIError, w).

(** [snapshot.get(field)] on an existing document; a stored timestamp comes
    back as an aware datetime in UTC. *)
Definition snapshot_get (data : gmap string Z) (field : string) : result datetime :=
  match data !! field with
  | Some t => Ok (utc_of_instant t)
  | None => Raise (KeyError field)
  end.

(** [ref.set(data)]: the document becomes [data]. *)
Definition document_set (e : env) (ref : string) (data : gmap string datetime) : M unit :=
  λ w, if write_ok e
       then (Ok tt, {| firestore := <[ref := to_instant <$> data]> (firestore w);
                       teams := teams w |})
       else (Raise GoogleAPIError, w).

(** [ref.update(data)]: the fields of [data] are overwritten in an existing
    document, the others kept. *)
Definition document_update (e : env) (ref : string) (data : gmap string datetime) : M unit :=
  λ w, if write_ok e
       then match firestore w !! ref with
            | Some old =>
                (Ok tt, {| firestore := <[ref := (to_instant <$> data) ∪ old]> (firestore w);
                           teams := teams w |})
            | None => (Raise NotFound, w)
            end
       else (Raise GoogleAPIError, w).

(** [requests.post(url, headers, json)]: the card is on the wire whatever
    comes back. *)
Definition requests_post (e : env) (card : teams_card) : M Z :=
  λ w, let w' := {| firestore := firestore w; teams := teams w ++ [card] |} in
       match post_status e with
       | Some status_code => (Ok status_code, w')
       | None => (Raise RequestException, w')
       end.

(** Truth value of what [check_to_notify_per_month] hands back: [None]
    (Python's [None]) is false. *)
Definition truthy (v : option bool) : bool :=
  match v with
  | Some b => b
  | None => false
  end.

End World.
Export World.

(** ** main.py *)

Definition red_code : string := "DC4731".
Definition green_code : string := "50C878".

(** lines 162-165 *)
Definition get_month_and_year (timestamp : datetime) : Z * Z :=
  let month := month timestamp in
  let year := year timestamp in
  (month, year).

(** lines 152-159 *)
Definition has_one_month_passed (current_timestamp last_notify_timestamp : datetime) : bool :=
  let '(current_month, current_year) := get_month_and_year current_timestamp in
  let '(last_notify_month, last_notify_year) := get_month_and_year last_notify_timestamp in
  (current_year >? last_notify_year)%Z
  || ((current_year =? last_notify_year)%Z && (current_month >? last_notify_month)%Z).

(** lines 145-149 *)
Definition convert_to_timestamp_with_bkk (timestamp_from_firestore : datetime) : datetime :=
  let last_notify_timestamp := strftime timestamp_from_firestore in
  let last_notify_timestamp := pendulum_parse last_notify_timestamp in
  let last_notify_timestamp_in_bkk := in_tz_bangkok last_notify_timestamp in
  last_notify_timestamp_in_bkk.

(** lines 100-142.  The result is [Some true], [Some false] or, when the
    handler at line 141 has caught something, [None]: the function falls off
    its end. *)
Definition check_to_notify_per_month (e : env) (project_id : string) : M (option bool) :=
  do _ <- firestore_Client e;
  let last_notify_ref := project_id in
  let current_timestamp := now_bangkok (clock e) in
  try_except
    (do last_notify_snapshot <- document_get e last_notify_ref;
     match last_notify_snapshot with
     | None =>
         do _ <- document_set e last_notify_ref {[ "last_noti" := current_timestamp ]};
         ret (Some true)
     | Some data =>
         do last_noti <- lift (snapshot_get data "last_noti");
         let last_notify_in_bkk := convert_to_timestamp_with_bkk last_noti in
         if has_one_month_passed current_timestamp last_notify_in_bkk then
           do _ <- document_update e last_notify_ref {[ "last_noti" := current_timestamp ]};
           ret (Some true)
         else ret (Some false)
     end)
    (λ _, ret None).

(** lines 77-97 *)
Definition send_teams (e : env) (webhook_url content title color : string) : M Z :=
  requests_post e {| card_url := webhook_url;
                     themeColor := color;
                     summary := title;
                     activityTitle := title;
                     activitySubtitle := content |}.

(** The decoded Pub/Sub payload. *)
Record event : Type := {
  costAmount : number;
  budgetAmount : number;
  budgetDisplayName : string;
  alertThresholdExceeded : option number
}.

Section Subscribe.

(** [str(x)] of a float, the shortest decimal that reads back as [x]; it
    only shows in the body of the card. *)
Variable float_repr : spec_float → string.

Definition str_number (x : number) : string :=
  match x with
  | Int n => str_int n
  | Float f => float_repr f
  end.

(** lines 39-46 *)
Definition render_content (budget_display_name : string) (cost_amount budget_amount : number) : string :=
  "
            Budget name '" +:+ budget_display_name +:+ "'<br>
            Current cost is <b>$" +:+ str_number cost_amount +:+ "</b>.<br>
            Budget cost is <b>$" +:+ str_number budget_amount +:+ "</b>.<br>
            💸 💸 💸 💸
        ".

(** lines 47-49 *)
Definition render_title (alertThresholdExceeded : number) (budget_display_name : string) : result string :=
  match mul_int alertThresholdExceeded 100 with
  | Ok percent =>
      match format_0f percent with
      | Ok digits => Ok ("💸 Cost reaches " +:+ digits +:+ "% from " +:+ budget_display_name)
      | Raise e => Raise e
      end
  | Raise e => Raise e
  end.

(** lines 21-74, from the decoded payload on. *)
Definition subscribe (e : env) (pubsub_json : event) : M unit :=
  let cost_amount := costAmount pubsub_json in
  let budget_amount := budgetAmount pubsub_json in
  let budget_display_name := budgetDisplayName pubsub_json in
  let alertThresholdExceeded := alertThresholdExceeded pubsub_json in
  do project_id <- lift (get_alert_name (budgetDisplayName pubsub_json));
  match alertThresholdExceeded with
  | None =>
      if Num.le cost_amount budget_amount then ret tt else ret tt
  | Some threshold =>
      let content := render_content budget_display_name cost_amount budget_amount in
      do title <- lift (render_title threshold budget_display_name);
      do should_notify <- check_to_notify_per_month e project_id;
      if truthy should_notify then
        if Num.eqb threshold (Float f0_75) then
          do _ <- send_teams e (webhook_url e) content title red_code; ret tt
        else if Num.eqb threshold (Float f1_0) then
          do _ <- send_teams e (webhook_url e) content title red_code; ret tt
        else ret tt
      else ret tt
  end.

End Subscribe.

(** ** Scenarios

    Concrete environments, worlds and events on which the properties below
    are exercised. *)
Module Scenario.

(** [str(x)] for a float of integral value below [1e16], such as [120.0]. *)
Definition repr_whole_float (f : spec_float) : string := format_0f_float f +:+ ".0".

(** Instants of 2024 on the Bangkok clock. *)
Definition feb_20 : Z := Eval vm_compute in to_instant (bangkok 2024 2 20 9 30 0).
Definition mar_01 : Z := Eval vm_compute in to_instant (bangkok 2024 3 1 0 0 5).
Definition mar_15 : Z := Eval vm_compute in to_instant (bangkok 2024 3 15 12 0 0).
Definition mar_15_later : Z := Eval vm_compute in to_instant (bangkok 2024 3 15 12 5 0).

(** Everything works. *)
Definition healthy (t : Z) : env :=
  {| clock := t; webhook_url := "https://teams.example/webhook";
     client_ok := true; get_ok := true; write_ok := true;
     post_status := Some 200%Z |}.

(** Firestore cannot be read. *)
Definition read_outage (t : Z) : env :=
  {| clock := t; webhook_url := "https://teams.example/webhook";
     client_ok := true; get_ok := false; write_ok := true;
     post_status := Some 200%Z |}.

(** Firestore can be read but not written. *)
Definition write_outage (t : Z) : env :=
  {| clock := t; webhook_url := "https://teams.example/webhook";
     client_ok := true; get_ok := true; write_ok := false;
     post_status := Some 200%Z |}.

Definition empty_world : world := {| firestore := ∅; teams := [] |}.

(** A world in which [key] was last notified at instant [t]. *)
Definition notified_at (key : string) (t : Z) : world :=
  {| firestore := {[ key := {[ "last_noti" := t ]} ]}; teams := [] |}.

Definition proj_x_event : event :=
  {| costAmount := Int 120;
     budgetAmount := Int 100;
     budgetDisplayName := "proj-x-bigquery-notification";
     alertThresholdExceeded := Some (Float f0_75) |}.

(** The same alert at a threshold the dispatch does not know: [0.5]. *)
Definition f0_5 : spec_float := Eval vm_compute in binary_normalize prec emax 1 (-1) false.

Definition half_event : event :=
  {| costAmount := Int 50;
     budgetAmount := Int 100;
     budgetDisplayName := "proj-x-bigquery-notification";
     alertThresholdExceeded := Some (Float f0_5) |}.

(** No threshold crossed, within budget. *)
Definition quiet_event (label : string) : event :=
  {| costAmount := Int 50;
     budgetAmount := Int 100;
     budgetDisplayName := label;
     alertThresholdExceeded := None |}.

End Scenario.

(** ** Vocabulary of the properties *)
Module Throttle.

(** What one call can do, whatever the environment: either it answers
    [True] and has written the current instant, or it leaves the world as
    it found it. *)
Inductive check_outcome (e : env) (key : string) (w : world) :
  result (option bool) → world → Prop :=
| check_created :
    firestore w !! key = None →
    check_outcome e key w (Ok (Some true))
      {| firestore := <[key := {[ "last_noti" := clock e ]}]> (firestore w);
         teams := teams w |}
| check_renewed data last :
    firestore w !! key = Some data → data !! "last_noti" = Some last →
    has_one_month_passed (now_bangkok (clock e)) (now_bangkok last) = true →
    check_outcome e key w (Ok (Some true))
      {| firestore := <[key := <["last_noti" := clock e]> data]> (firestore w);
         teams := teams w |}
| check_idle r :
    r ≠ Ok (Some true) → check_outcome e key w r w.

(** After a call with the store available the project has a record, and
    the month of the call is not past the month of the record. *)
Definition settled (e : env) (key : string) (w : world) : Prop :=
  ∃ data, firestore w !! key = Some data
          ∧ ∀ last, data !! "last_noti" = Some last →
                    has_one_month_passed (now_bangkok (clock e)) (now_bangkok last) = false.

(** When the store fails: the read, or the write that the throttle is about
    to make. *)
Definition store_fails (e : env) (key : string) (w : world) : Prop :=
  get_ok e = false
  ∨ (get_ok e = true ∧ write_ok e = false
     ∧ (firestore w !! key = None
        ∨ ∃ data last,
            firestore w !! key = Some data ∧ data !! "last_noti" = Some last
            ∧ has_one_month_passed (now_bangkok (clock e)) (now_bangkok last) = true)).

Ltac throttle_unfold :=
  unfold check_to_notify_per_month, try_except, bind, firestore_Client,
    document_get, document_set, document_update, snapshot_get, lift, ret, raise.

Ltac subscribe_unfold :=
  unfold subscribe, send_teams, requests_post, bind, lift, ret.

End Throttle.
Export Throttle.

(** ** The order of months on the calendar *)
Module CalendarOrder.
Local Open Scope Z_scope.

(** Months counted from year 0: [has_one_month_passed] compares these. *)
Definition month_number (d : datetime) : Z := 12 * year d + month d.

(** Month, and count of months within the era, of a day of the era. *)
Definition era_month (doe : Z) : Z * Z :=
  let '(yoe, m, _) := date_in_era doe in
  (m, 12 * (if m <=? 2 then yoe + 1 else yoe) + m).

Definition era_month_number (doe : Z) : Z := (era_month doe).2.

(** One step of a scan over the days of an era: the day reached, the count
    of the day before, and whether every day so far had a month between 1
    and 12 and a count at most 4802 and not below that of the day before. *)
Definition era_scan_step (st : Z * Z * bool) : Z * Z * bool :=
  let '(doe, before, ok) := st in
  let '(m, n) := era_month doe in
  (doe + 1, n,
   ok && (1 <=? m) && (m <=? 12) && (n <=? 4802) && (before <=? n)).

Definition era_scan (days : positive) : Z * Z * bool :=
  Pos.iter era_scan_step (0, 3, true) days.

(** What the scan has established when it reaches a day. *)
Definition era_scan_inv (st : Z * Z * bool) : Prop :=
  let '(doe, before, ok) := st in
  ok = true →
  3 <= before
  ∧ ∀ j, 0 <= j < doe →
         1 <= (era_month j).1 <= 12
         ∧ 3 <= era_month_number j <= 4802
         ∧ era_month_number j <= before
         ∧ ∀ i, 0 <= i <= j → era_month_number i <= era_month_number j.

End CalendarOrder.
Export CalendarOrder.

(** ** Deliveries one after the other *)
Module Deliveries.

(** The card [send_teams] puts on the wire. *)
Definition card_of (e : env) (title content : string) : teams_card :=
  {| card_url := webhook_url e;
     themeColor := red_code;
     summary := title;
     activityTitle := title;
     activitySubtitle := content |}.

(** Invocations handled one after the other, each in its own environment;
    one that raises leaves the world as far as it got. *)
Fixpoint deliver (repr : spec_float → string) (calls : list (env * event)) (w : world) : world :=
  match calls with
  | [] => w
  | (e, ev) :: rest => deliver repr rest (subscribe repr e ev w).2
  end.

(** Two environments whose clocks read the same Bangkok calendar month. *)
Definition same_month (e1 e2 : env) : Prop :=
  year (now_bangkok (clock e1)) = year (now_bangkok (clock e2))
  ∧ month (now_bangkok (clock e1)) = month (now_bangkok (clock e2)).

(** What one invocation does to the world: nothing; what the throttle does
    and no more; or what the throttle does on a [True] and one card. *)
Inductive subscribe_outcome (repr : spec_float → string) (e : env) (ev : event) (w : world) :
  world → Prop :=
| subscribe_quiet :
    subscribe_outcome repr e ev w w
| subscribe_throttled key :
    get_alert_name (budgetDisplayName ev) = Ok key →
    subscribe_outcome repr e ev w (check_to_notify_per_month e key w).2
| subscribe_posted key t title :
    get_alert_name (budgetDisplayName ev) = Ok key →
    alertThresholdExceeded ev = Some t →
    Num.eqb t (Float f0_75) = true ∨ Num.eqb t (Float f1_0) = true →
    render_title t (budgetDisplayName ev) = Ok title →
    (check_to_notify_per_month e key w).1 = Ok (Some true) →
    subscribe_outcome repr e ev w
      {| firestore := firestore (check_to_notify_per_month e key w).2;
         teams := teams (check_to_notify_per_month e key w).2
                  ++ [card_of e title
                        (render_content repr (budgetDisplayName ev)
                                        (costAmount ev) (budgetAmount ev))] |}.

End Deliveries.
Export Deliveries.

(** ** Properties of the string operations *)
Module PyStrFacts.
Import PyStr.

Lemma startswith_app pre s : startswith pre s = true ↔ ∃ post, s = pre +:+ post.
Proof.
  revert s. induction pre as [|a pre IH]; intros s; simpl.
  - split; [intros _; by exists s | done].
  - destruct s as [|b s].
    + split; [done | intros [post H]; discriminate].
    + case_decide as Hab.
      * subst b. rewrite IH. split; intros [post H]; exists post.
        -- by rewrite H.
        -- by injection H.
      * split; [done | intros [post H]; injection H; intros; congruence].
Qed.

Lemma occurs_at_0 sub s : occurs_at sub s 0 ↔ startswith sub s = true.
Proof.
  rewrite startswith_app. split.
  - intros (pre & post & -> & Hlen). destruct pre; [|done]. by exists post.
  - intros [post ->]. by exists "", post.
Qed.

Lemma occurs_at_S sub a s j : occurs_at sub (String a s) (S j) ↔ occurs_at sub s j.
Proof.
  split.
  - intros (pre & post & Heq & Hlen). destruct pre as [|b pre]; [done|].
    simpl in *. injection Heq as -> ->. exists pre, post. split; [done | lia].
  - intros (pre & post & -> & Hlen). exists (String a pre), post.
    split; [done | simpl; lia].
Qed.

Lemma occurs_at_empty sub j : occurs_at sub "" (S j) → False.
Proof. intros (pre & post & Heq & Hlen). by destruct pre. Qed.

Lemma find_Some sub s i : find sub s = Some i ↔ first_occurrence sub s i.
Proof.
  revert i. induction s as [|a s IH]; intros i; simpl.
  - destruct (startswith sub "") eqn:Hsw.
    + split.
      * intros [= <-]. split; [by apply occurs_at_0 | lia].
      * intros [_ Hmin]. apply occurs_at_0 in Hsw. apply Hmin in Hsw.
        f_equal. lia.
    + split; [done|]. intros [Hocc _]. destruct i.
      * apply occurs_at_0 in Hocc. congruence.
      * by apply occurs_at_empty in Hocc.
  - destruct (startswith sub (String a s)) eqn:Hsw.
    + split.
      * intros [= <-]. split; [by apply occurs_at_0 | lia].
      * intros [_ Hmin]. apply occurs_at_0 in Hsw. apply Hmin in Hsw.
        f_equal. lia.
    + destruct i as [|i].
      * split.
        -- destruct (find sub s); done.
        -- intros [Hocc _]. apply occurs_at_0 in Hocc. congruence.
      * transitivity (find sub s = Some i).
        { destruct (find sub s); simpl; split; intros [=]; by subst. }
        rewrite IH. unfold first_occurrence. rewrite occurs_at_S.
        split; intros [Hocc Hmin]; (split; [done|]).
        -- intros [|j] Hj.
           ++ apply occurs_at_0 in Hj. congruence.
           ++ apply occurs_at_S in Hj. apply Hmin in Hj. lia.
        -- intros j Hj. pose proof (proj2 (occurs_at_S sub a s j) Hj) as Hj'.
           apply Hmin in Hj'. lia.
Qed.

Lemma find_None sub s : find sub s = None ↔ ¬ occurs sub s.
Proof.
  induction s as [|a s IH]; simpl.
  - destruct (startswith sub "") eqn:Hsw.
    + split; [done|]. intros []. exists 0. by apply occurs_at_0.
    + split; [|done]. intros _ [[|j] Hj].
      * apply occurs_at_0 in Hj. congruence.
      * by apply occurs_at_empty in Hj.
  - destruct (startswith sub (String a s)) eqn:Hsw.
    + split; [done|]. intros []. exists 0. by apply occurs_at_0.
    + transitivity (find sub s = None).
      { destruct (find sub s); simpl; split; done. }
      rewrite IH. split; intros Hno [j Hj]; apply Hno.
      * destruct j as [|j].
        -- apply occurs_at_0 in Hj. congruence.
        -- exists j. by apply occurs_at_S in Hj.
      * exists (S j). by apply occurs_at_S.
Qed.

Lemma contains_occurs sub s : contains sub s = true ↔ occurs sub s.
Proof.
  unfold contains. rewrite bool_decide_eq_true. split.
  - intros [i Hi]. apply find_Some in Hi as [Hi _]. by exists i.
  - intros Hocc. destruct (find sub s) eqn:Hf; [by eexists|].
    by apply find_None in Hf.
Qed.

Lemma take_app pre s : take (String.length pre) (pre +:+ s) = pre.
Proof. induction pre as [|a pre IH]; simpl; [by destruct s | by rewrite IH]. Qed.

Lemma first_occurrence_unique sub s i j :
  first_occurrence sub s i → first_occurrence sub s j → i = j.
Proof. intros [Hi Hmi] [Hj Hmj]. apply Hmi in Hj. apply Hmj in Hi. lia. Qed.

(** The head of [s.split(sep)] is what precedes the leftmost [sep]. *)
Lemma split_head sep s pre post :
  sep ≠ "" → s = pre +:+ sep +:+ post →
  first_occurrence sep s (String.length pre) →
  ∃ rest, split sep s = Some (pre :: rest).
Proof.
  intros Hsep -> Hfirst. apply find_Some in Hfirst.
  unfold split. destruct sep as [|c sep]; [done|].
  cbn [split_from]. rewrite Hfirst, take_app. eauto.
Qed.

Lemma find_nonempty_in_empty sep : sep ≠ "" → find sep "" = None.
Proof. by destruct sep. Qed.

Lemma length_drop n s : String.length (drop n s) = (String.length s - n)%nat.
Proof.
  revert s. induction n as [|n IH]; intros [|a s]; simpl; try done; lia.
Qed.

(** The rounds granted to [split] are enough: more of them change nothing. *)
Lemma split_from_enough sep s fuel1 fuel2 :
  sep ≠ "" → (String.length s < fuel1)%nat → (String.length s < fuel2)%nat →
  split_from fuel1 sep s = split_from fuel2 sep s.
Proof.
  intros Hsep. revert s fuel2.
  induction fuel1 as [|fuel1 IH]; intros s [|fuel2] H1 H2; try lia.
  cbn [split_from]. destruct (find sep s) as [i|] eqn:Hfind; [|done].
  f_equal. destruct s as [|a s].
  { by rewrite find_nonempty_in_empty in Hfind. }
  assert (0 < String.length sep)%nat by (destruct sep; [done | simpl; lia]).
  apply IH; rewrite length_drop; simpl in *; lia.
Qed.

End PyStrFacts.

(** ** The calendar round trip *)
Module CalendarFacts.

Local Open Scope Z_scope.

Lemma era_span_ok_spec depth lo :
  era_span_ok depth lo = true →
  ∀ doe, lo <= doe < lo + 2 ^ Z.of_nat depth → doe < 146097 → era_day_ok doe = true.
Proof.
  revert lo. induction depth as [|k IH]; intros lo Hok doe Hdoe Hlt.
  - cbn [era_span_ok] in Hok. change (2 ^ Z.of_nat 0) with 1 in Hdoe.
    assert (doe = lo) as -> by lia.
    apply orb_true_iff in Hok as [Hge|Hday]; [|done].
    apply Z.leb_le in Hge. lia.
  - cbn [era_span_ok] in Hok. apply andb_true_iff in Hok as [Hl Hr].
    rewrite Nat2Z.inj_succ, Z.pow_succ_r in Hdoe by lia.
    destruct (Z_lt_ge_dec doe (lo + 2 ^ Z.of_nat k)).
    + apply (IH lo); [done | lia | done].
    + apply (IH (lo + 2 ^ Z.of_nat k)); [done | lia | done].
Qed.

(** All 146097 days of an era, by evaluation. *)
Lemma era_checked : era_span_ok 18 0 = true.
Proof. vm_cast_no_check (eq_refl true). Qed.

Lemma date_in_era_inv doe yoe m d :
  0 <= doe < 146097 → date_in_era doe = (yoe, m, d) →
  0 <= yoe < 400 ∧ day_in_era yoe m d = doe.
Proof.
  intros Hdoe Heq.
  assert (era_day_ok doe = true) as Hok.
  { apply (era_span_ok_spec 18 0 era_checked); [|lia].
    change (2 ^ Z.of_nat 18) with 262144. lia. }
  unfold era_day_ok in Hok. rewrite Heq in Hok.
  apply andb_true_iff in Hok as [Hok H3]. apply andb_true_iff in Hok as [H1 H2].
  lia.
Qed.

Lemma days_from_civil_from_days z y m d :
  civil_from_days z = (y, m, d) → days_from_civil y m d = z.
Proof.
  unfold civil_from_days, days_from_civil.
  destruct (date_in_era ((z + 719468) mod 146097)) as [[yoe m'] d'] eqn:Hsplit.
  intros [= <- <- <-].
  apply date_in_era_inv in Hsplit as [Hyoe Hjoin];
    [|apply Z.mod_pos_bound; lia].
  set (era := (z + 719468) / 146097) in *.
  assert ((if m' <=? 2 then (if m' <=? 2 then yoe + era * 400 + 1 else yoe + era * 400) - 1
           else if m' <=? 2 then yoe + era * 400 + 1 else yoe + era * 400)
          = yoe + era * 400) as -> by (destruct (m' <=? 2); lia).
  rewrite Z.div_add, Z.mod_add by lia.
  rewrite Z.div_small, Z.mod_small by lia.
  rewrite Hjoin. subst era.
  pose proof (Z.div_mod (z + 719468) 146097 ltac:(lia)). lia.
Qed.

Lemma clock_fields_join rem :
  0 <= rem →
  (rem / (3600 * us_per_second) * 3600
   + rem / (60 * us_per_second) mod 60 * 60
   + rem / us_per_second mod 60) * us_per_second
  + rem mod us_per_second = rem.
Proof.
  intros Hrem. unfold us_per_second.
  change (3600 * 1000000) with (1000000 * (60 * 60)).
  change (60 * 1000000) with (1000000 * 60).
  rewrite <- !Z.div_div by lia.
  pose proof (Z.div_mod rem 1000000 ltac:(lia)) as H1.
  set (q := rem / 1000000) in *.
  pose proof (Z.div_mod q 60 ltac:(lia)) as H2.
  set (q60 := q / 60) in *.
  pose proof (Z.div_mod q60 60 ltac:(lia)) as H3.
  lia.
Qed.

(** Reading an instant on a clock and taking the instant of what was read
    gives the instant back, whatever the offset of the clock. *)
Lemma to_instant_of_instant offset t : to_instant (of_instant offset t) = t.
Proof.
  unfold of_instant, to_instant.
  set (local := t + offset * us_per_second).
  destruct (civil_from_days (local / us_per_day)) as [[y m] d] eqn:Hciv.
  cbn [year month day hour minute second microsecond utcoffset].
  apply days_from_civil_from_days in Hciv. rewrite Hciv.
  assert (0 <= local mod us_per_day) as Hrem
    by (apply Z.mod_pos_bound; unfold us_per_day, us_per_second; lia).
  pose proof (clock_fields_join _ Hrem) as Hjoin.
  pose proof (Z.div_mod local us_per_day
                ltac:(unfold us_per_day, us_per_second; lia)) as Hdm.
  unfold us_per_day in *. subst local. unfold us_per_second in *. lia.
Qed.

Lemma to_instant_now_bangkok t : to_instant (now_bangkok t) = t.
Proof. apply to_instant_of_instant. Qed.

Lemma to_instant_utc t : to_instant (utc_of_instant t) = t.
Proof. apply to_instant_of_instant. Qed.

Lemma pendulum_parse_strftime d : pendulum_parse (strftime d) = d.
Proof. by destruct d. Qed.

End CalendarFacts.

(** ** The throttle, case by case *)
Module ThrottleFacts.

Lemma convert_to_timestamp_with_bkk_utc t :
  convert_to_timestamp_with_bkk (utc_of_instant t) = now_bangkok t.
Proof.
  unfold convert_to_timestamp_with_bkk, in_tz_bangkok, now_bangkok.
  by rewrite CalendarFacts.pendulum_parse_strftime, CalendarFacts.to_instant_utc.
Qed.

Lemma stored_now t :
  to_instant <$> ({[ "last_noti" := now_bangkok t ]} : gmap string datetime)
  = {[ "last_noti" := t ]}.
Proof. by rewrite map_fmap_singleton, CalendarFacts.to_instant_now_bangkok. Qed.

Lemma has_one_month_passed_iff current previous :
  has_one_month_passed current previous = true ↔
  (year current > year previous
   ∨ (year current = year previous ∧ month current > month previous))%Z.
Proof.
  unfold has_one_month_passed, get_month_and_year.
  rewrite orb_true_iff, andb_true_iff, Z.eqb_eq.
  rewrite <- !Zgt_is_gt_bool. tauto.
Qed.

Lemma has_one_month_passed_refl t : has_one_month_passed t t = false.
Proof.
  apply not_true_is_false. rewrite has_one_month_passed_iff. lia.
Qed.

(** Only the year and the month of the current time matter. *)
Lemma has_one_month_passed_same_month a b previous :
  year a = year b → month a = month b →
  has_one_month_passed a previous = has_one_month_passed b previous.
Proof.
  intros Hy Hm. unfold has_one_month_passed, get_month_and_year.
  by rewrite Hy, Hm.
Qed.

Lemma store_available_inv e :
  store_available e = true → client_ok e = true ∧ get_ok e = true ∧ write_ok e = true.
Proof.
  unfold store_available. rewrite !andb_true_iff. tauto.
Qed.

(** First sighting of a project. *)
Lemma check_fresh e key w :
  store_available e = true → firestore w !! key = None →
  check_to_notify_per_month e key w
  = (Ok (Some true),
     {| firestore := <[key := {[ "last_noti" := clock e ]}]> (firestore w);
        teams := teams w |}).
Proof.
  intros (Hc & Hg & Hw)%store_available_inv Hnone.
  throttle_unfold. rewrite Hc, Hg, Hnone, Hw. by rewrite stored_now.
Qed.

(** A record of an earlier month. *)
Lemma check_rolled e key w data last :
  store_available e = true →
  firestore w !! key = Some data → data !! "last_noti" = Some last →
  has_one_month_passed (now_bangkok (clock e)) (now_bangkok last) = true →
  check_to_notify_per_month e key w
  = (Ok (Some true),
     {| firestore := <[key := <["last_noti" := clock e]> data]> (firestore w);
        teams := teams w |}).
Proof.
  intros (Hc & Hg & Hw)%store_available_inv Hdoc Hfield Hroll.
  throttle_unfold. rewrite Hc, Hg, Hdoc, Hfield.
  rewrite convert_to_timestamp_with_bkk_utc, Hroll, Hw, Hdoc.
  by rewrite stored_now, <- insert_union_singleton_l.
Qed.

(** A record of the current month: the store is not even written to, so
    this holds whether or not writes would go through. *)
Lemma check_same_month e key w data last :
  client_ok e = true → get_ok e = true →
  firestore w !! key = Some data → data !! "last_noti" = Some last →
  has_one_month_passed (now_bangkok (clock e)) (now_bangkok last) = false →
  check_to_notify_per_month e key w = (Ok (Some false), w).
Proof.
  intros Hc Hg Hdoc Hfield Hroll.
  throttle_unfold. rewrite Hc, Hg, Hdoc, Hfield.
  by rewrite convert_to_timestamp_with_bkk_utc, Hroll.
Qed.

Lemma check_to_notify_per_month_outcome e key w :
  check_outcome e key w (check_to_notify_per_month e key w).1
                        (check_to_notify_per_month e key w).2.
Proof.
  throttle_unfold.
  destruct (client_ok e); [|by apply check_idle].
  destruct (get_ok e); [|by apply check_idle].
  destruct (firestore w !! key) as [data|] eqn:Hdoc.
  - destruct (data !! "last_noti") as [last|] eqn:Hfield; [|by apply check_idle].
    rewrite convert_to_timestamp_with_bkk_utc.
    destruct (has_one_month_passed _ _) eqn:Hroll; [|by apply check_idle].
    destruct (write_ok e); [|by apply check_idle].
    rewrite Hdoc. cbn [fst snd]. rewrite stored_now, <- insert_union_singleton_l.
    by eapply check_renewed.
  - destruct (write_ok e); [|by apply check_idle].
    cbn [fst snd]. rewrite stored_now. by apply check_created.
Qed.

End ThrottleFacts.

(** ** Properties of main.py *)

Import PyStr PyStrFacts ThrottleFacts Scenario.

Lemma get_alert_name_Ok pre post :
  first_occurrence marker (pre +:+ marker +:+ post) (String.length pre) →
  get_alert_name (pre +:+ marker +:+ post) = Ok pre.
Proof.
  intros Hfirst. unfold get_alert_name.
  assert (contains marker (pre +:+ marker +:+ post) = true) as ->.
  { apply contains_occurs. exists (String.length pre). apply Hfirst. }
  destruct (split_head marker (pre +:+ marker +:+ post) pre post)
    as [rest ->]; done.
Qed.

Lemma get_alert_name_Raise label :
  ¬ occurs marker label → get_alert_name label = Raise (InvalidAlertNameException label).
Proof.
  intros Hno. unfold get_alert_name.
  destruct (contains marker label) eqn:Hc; [|done].
  by apply contains_occurs in Hc.
Qed.

Lemma get_alert_name_occurs label :
  occurs marker label → ∃ pre, get_alert_name label = Ok pre.
Proof.
  intros Hocc. apply contains_occurs in Hocc.
  unfold contains in Hocc. apply bool_decide_eq_true in Hocc as [i Hi].
  apply find_Some in Hi. pose proof Hi as [(pre & post & Heq & Hlen) _].
  subst i. rewrite Heq in Hi |- *. eexists. by apply get_alert_name_Ok.
Qed.

(** C5: a label that contains the marker resolves to what precedes the
    first occurrence of the marker; a label that does not contain it raises
    [InvalidAlertNameException] carrying the label; and these are the only
    labels on which [get_alert_name] raises. *)
Theorem get_alert_name_spec (label : string) :
  (∀ pre post,
      label = pre +:+ marker +:+ post →
      first_occurrence marker label (String.length pre) →
      get_alert_name label = Ok pre)
  ∧ (¬ occurs marker label →
     get_alert_name label = Raise (InvalidAlertNameException label))
  ∧ ((∃ e, get_alert_name label = Raise e) ↔ ¬ occurs marker label).
Proof.
  split; [|split].
  - intros pre post -> Hfirst. by apply get_alert_name_Ok.
  - apply get_alert_name_Raise.
  - split.
    + intros [e He] Hocc. apply get_alert_name_occurs in Hocc as [pre Hpre].
      congruence.
    + intros Hno. eexists. by apply get_alert_name_Raise.
Qed.

Lemma get_alert_name_spec_witness :
  get_alert_name "mils-project-bigquery-notification" = Ok "mils-project"
  ∧ get_alert_name "no-marker-here" = Raise (InvalidAlertNameException "no-marker-here").
Proof.
  split.
  - apply (proj1 (get_alert_name_spec "mils-project-bigquery-notification")
             "mils-project" ""); [reflexivity|].
    apply find_Some. vm_compute. reflexivity.
  - apply (proj1 (proj2 (get_alert_name_spec "no-marker-here"))).
    apply find_None. vm_compute. reflexivity.
Defined.

(** C10: a label that begins with the marker resolves to the empty
    project name; nothing rejects the empty key. *)
Theorem get_alert_name_leading_marker (rest : string) :
  get_alert_name (marker +:+ rest) = Ok "".
Proof.
  apply (get_alert_name_Ok "" rest). split.
  - by exists "", rest.
  - intros j _. cbn. lia.
Qed.

(** C3: [has_one_month_passed current previous] is true exactly when the
    year of [current] is greater than the year of [previous], or the years
    are equal and the month of [current] is greater; so it is true from
    2024-01-28 to 2024-02-01, false from 2024-01-01 to 2024-01-29, and true
    from 2024-12-31 to 2025-01-01. *)
Theorem has_one_month_passed_spec :
  (∀ current previous,
      has_one_month_passed current previous = true ↔
      (year current > year previous
       ∨ (year current = year previous ∧ month current > month previous))%Z)
  ∧ has_one_month_passed (bangkok 2024 2 1 0 0 0) (bangkok 2024 1 28 0 0 0) = true
  ∧ has_one_month_passed (bangkok 2024 1 29 0 0 0) (bangkok 2024 1 1 0 0 0) = false
  ∧ has_one_month_passed (bangkok 2025 1 1 0 0 0) (bangkok 2024 12 31 0 0 0) = true.
Proof.
  split; [apply has_one_month_passed_iff|].
  repeat split; reflexivity.
Qed.

(** C9: the month comparison is irreflexive and asymmetric: no time is a
    month past itself, and of two times at most one is a month past the
    other. *)
Theorem has_one_month_passed_irreflexive_asymmetric :
  (∀ t, has_one_month_passed t t = false)
  ∧ (∀ a b, ¬ (has_one_month_passed a b = true ∧ has_one_month_passed b a = true)).
Proof.
  split; [apply has_one_month_passed_refl|].
  intros a b [Hab Hba].
  apply has_one_month_passed_iff in Hab. apply has_one_month_passed_iff in Hba.
  lia.
Qed.

(** A renewed record differs from the one it replaces. *)
Lemma renewed_differs e (store : gmap string (gmap string Z)) key data last :
  store !! key = Some data → data !! "last_noti" = Some last →
  has_one_month_passed (now_bangkok (clock e)) (now_bangkok last) = true →
  <[key := <["last_noti" := clock e]> data]> store ≠ store.
Proof.
  intros Hdoc Hfield Hroll Heq.
  assert (<["last_noti" := clock e]> data = data) as Hdata.
  { apply (f_equal (.!! key)) in Heq.
    rewrite lookup_insert_eq, Hdoc in Heq. by injection Heq. }
  apply (f_equal (.!! "last_noti")) in Hdata.
  rewrite lookup_insert_eq, Hfield in Hdata. injection Hdata as Hnow.
  rewrite Hnow, has_one_month_passed_refl in Hroll. discriminate.
Qed.

Lemma created_differs (store : gmap string (gmap string Z)) key data :
  store !! key = None → <[key := data]> store ≠ store.
Proof.
  intros Hnone Heq. apply (f_equal (.!! key)) in Heq.
  rewrite lookup_insert_eq, Hnone in Heq. discriminate.
Qed.

(** C1: with the store available, [check_to_notify_per_month] answers
    [True] and creates the record with the current instant when the project
    has none; answers [True] and overwrites [last_noti] with the current
    instant when the record is of an earlier month on the Bangkok calendar;
    answers [False] and leaves the world alone when it is not.  Whatever the
    environment, the store changes exactly when the answer is [True]. *)
Theorem check_to_notify_per_month_spec (e : env) (key : string) (w : world) :
  let r := (check_to_notify_per_month e key w).1 in
  let w' := (check_to_notify_per_month e key w).2 in
  (store_available e = true → firestore w !! key = None →
   r = Ok (Some true)
   ∧ firestore w' = <[key := {[ "last_noti" := clock e ]}]> (firestore w))
  ∧ (∀ data last,
        store_available e = true →
        firestore w !! key = Some data → data !! "last_noti" = Some last →
        has_one_month_passed (now_bangkok (clock e)) (now_bangkok last) = true →
        r = Ok (Some true)
        ∧ firestore w' = <[key := <["last_noti" := clock e]> data]> (firestore w))
  ∧ (∀ data last,
        store_available e = true →
        firestore w !! key = Some data → data !! "last_noti" = Some last →
        has_one_month_passed (now_bangkok (clock e)) (now_bangkok last) = false →
        r = Ok (Some false) ∧ w' = w)
  ∧ (r = Ok (Some true) ↔ firestore w' ≠ firestore w).
Proof.
  cbv zeta. split; [|split; [|split; [|split]]].
  - intros Hav Hnone. by rewrite check_fresh.
  - intros data last Hav Hdoc Hfield Hroll. by erewrite check_rolled.
  - intros data last (Hc & Hg & _)%store_available_inv Hdoc Hfield Hroll.
    by erewrite check_same_month.
  - intros Htrue.
    destruct (check_to_notify_per_month_outcome e key w)
      as [Hnone|data last Hdoc Hfield Hroll|r Hr]; cbn [firestore].
    + by apply created_differs.
    + by eapply renewed_differs.
    + congruence.
  - intros Hchanged.
    destruct (check_to_notify_per_month_outcome e key w)
      as [Hnone|data last Hdoc Hfield Hroll|r Hr]; done.
Qed.

Lemma check_to_notify_per_month_spec_witness :
  (check_to_notify_per_month (healthy mar_15) "proj-x" empty_world).1 = Ok (Some true)
  ∧ (check_to_notify_per_month (healthy mar_15) "proj-x" (notified_at "proj-x" feb_20)).1
    = Ok (Some true)
  ∧ (check_to_notify_per_month (healthy mar_15) "proj-x" (notified_at "proj-x" mar_01)).2
    = notified_at "proj-x" mar_01.
Proof.
  split; [|split].
  - apply (proj1 (check_to_notify_per_month_spec (healthy mar_15) "proj-x" empty_world));
      reflexivity.
  - apply (proj1 (proj2 (check_to_notify_per_month_spec
                           (healthy mar_15) "proj-x" (notified_at "proj-x" feb_20)))
             {[ "last_noti" := feb_20 ]} feb_20); reflexivity.
  - apply (proj1 (proj2 (proj2 (check_to_notify_per_month_spec
                                  (healthy mar_15) "proj-x" (notified_at "proj-x" mar_01))))
             {[ "last_noti" := mar_01 ]} mar_01); reflexivity.
Defined.

(** ** The entry point *)

Lemma check_teams e key w : teams (check_to_notify_per_month e key w).2 = teams w.
Proof.
  by destruct (check_to_notify_per_month_outcome e key w).
Qed.

Lemma check_returns e key w :
  client_ok e = true → ∃ v, (check_to_notify_per_month e key w).1 = Ok v.
Proof.
  intros Hc. throttle_unfold. rewrite Hc.
  repeat match goal with
         | |- context [match ?x with _ => _ end] => destruct x
         | |- context [if ?x then _ else _] => destruct x
         end; eauto.
Qed.

Lemma check_settles e key w :
  store_available e = true → settled e key (check_to_notify_per_month e key w).2.
Proof.
  intros Hav. unfold settled.
  destruct (firestore w !! key) as [data|] eqn:Hdoc.
  - destruct (data !! "last_noti") as [last|] eqn:Hfield.
    + destruct (has_one_month_passed (now_bangkok (clock e)) (now_bangkok last)) eqn:Hroll.
      * erewrite check_rolled by done. cbn [snd firestore].
        rewrite lookup_insert_eq. eexists; split; [done|].
        intros last'. rewrite lookup_insert_eq. intros [= <-].
        apply has_one_month_passed_refl.
      * apply store_available_inv in Hav as (Hc & Hg & _).
        erewrite check_same_month by done. cbn [snd].
        exists data. split; [done|]. intros last'. rewrite Hfield. by intros [= <-].
    + apply store_available_inv in Hav as (Hc & Hg & _).
      throttle_unfold. rewrite Hc, Hg, Hdoc, Hfield. cbn [snd].
      exists data. split; [done|]. intros last'. by rewrite Hfield.
  - rewrite check_fresh by done. cbn [snd firestore].
    rewrite lookup_insert_eq. eexists; split; [done|].
    intros last'. rewrite lookup_singleton_eq. intros [= <-].
    apply has_one_month_passed_refl.
Qed.

(** A settled project is not notified again by a call of the same month. *)
Lemma settled_suppresses e1 e2 key w :
  settled e1 key w →
  year (now_bangkok (clock e2)) = year (now_bangkok (clock e1)) →
  month (now_bangkok (clock e2)) = month (now_bangkok (clock e1)) →
  (check_to_notify_per_month e2 key w).1 ≠ Ok (Some true).
Proof.
  intros (data & Hdoc & Hnot) Hy Hm.
  destruct (check_to_notify_per_month_outcome e2 key w)
    as [Hnone|data' last Hdoc' Hfield Hroll|r Hr]; [congruence| |done].
  assert (data' = data) as -> by congruence.
  rewrite (has_one_month_passed_same_month _ (now_bangkok (clock e1))) in Hroll by done.
  rewrite (Hnot _ Hfield) in Hroll. discriminate.
Qed.

(** Without a [True] from the throttle nothing is posted. *)
Lemma subscribe_silent repr e ev w :
  (∀ key, get_alert_name (budgetDisplayName ev) = Ok key →
          (check_to_notify_per_month e key w).1 ≠ Ok (Some true)) →
  teams (subscribe repr e ev w).2 = teams w.
Proof.
  intros Hno. subscribe_unfold.
  destruct (get_alert_name (budgetDisplayName ev)) as [key|x]; [|done].
  specialize (Hno key eq_refl).
  destruct (alertThresholdExceeded ev) as [t|]; [|by destruct (Num.le _ _)].
  destruct (render_title t (budgetDisplayName ev)) as [title|x]; [|done].
  pose proof (check_teams e key w) as Hteams.
  destruct (check_to_notify_per_month e key w) as [[[[]|]|x] w1]; done.
Qed.

(** With a threshold that is neither [0.75] nor [1.0], the world after
    [subscribe] is the world after the throttle. *)
Lemma subscribe_unhandled repr e ev w t key title :
  alertThresholdExceeded ev = Some t →
  Num.eqb t (Float f0_75) = false → Num.eqb t (Float f1_0) = false →
  get_alert_name (budgetDisplayName ev) = Ok key →
  render_title t (budgetDisplayName ev) = Ok title →
  (subscribe repr e ev w).2 = (check_to_notify_per_month e key w).2.
Proof.
  intros Ht H75 H100 Hkey Htitle. subscribe_unfold.
  rewrite Hkey, Ht, Htitle, H75, H100.
  destruct (check_to_notify_per_month e key w) as [[[[]|]|x] w1]; done.
Qed.

(** At [0.75], with a [True] from the throttle, one card goes out: in
    [red_code], with the title as summary and as activity title. *)
Lemma subscribe_notifies repr e ev w t key title w1 :
  alertThresholdExceeded ev = Some t →
  get_alert_name (budgetDisplayName ev) = Ok key →
  render_title t (budgetDisplayName ev) = Ok title →
  check_to_notify_per_month e key w = (Ok (Some true), w1) →
  Num.eqb t (Float f0_75) = true →
  (subscribe repr e ev w).2
  = {| firestore := firestore w1;
       teams := teams w1 ++
                [{| card_url := webhook_url e;
                    themeColor := red_code;
                    summary := title;
                    activityTitle := title;
                    activitySubtitle :=
                      render_content repr (budgetDisplayName ev)
                                     (costAmount ev) (budgetAmount ev) |}] |}.
Proof.
  intros Ht Hkey Htitle Hcheck H75. subscribe_unfold.
  rewrite Hkey, Ht, Htitle, Hcheck, H75. cbn [truthy].
  by destruct (post_status e).
Qed.

(** C7: an alert whose threshold is present but is neither [0.75] nor [1.0]
    posts nothing to the webhook; with a well-formed label, a printable
    percentage and a Firestore client, [subscribe] returns normally. *)
Theorem unhandled_threshold_sends_nothing
    (repr : spec_float → string) (e : env) (ev : event) (w : world) (t : number) :
  alertThresholdExceeded ev = Some t →
  Num.eqb t (Float f0_75) = false →
  Num.eqb t (Float f1_0) = false →
  teams (subscribe repr e ev w).2 = teams w
  ∧ (is_ok (get_alert_name (budgetDisplayName ev)) = true →
     is_ok (render_title t (budgetDisplayName ev)) = true →
     client_ok e = true →
     (subscribe repr e ev w).1 = Ok tt).
Proof.
  intros Ht H75 H100. split.
  - subscribe_unfold. rewrite Ht, H75, H100.
    destruct (get_alert_name (budgetDisplayName ev)) as [key|x]; [|done].
    destruct (render_title t (budgetDisplayName ev)) as [title|x]; [|done].
    pose proof (check_teams e key w) as Hteams.
    destruct (check_to_notify_per_month e key w) as [[[[]|]|x] w1]; done.
  - intros Hlabel Htitle Hc. subscribe_unfold. rewrite Ht, H75, H100.
    destruct (get_alert_name (budgetDisplayName ev)) as [key|x]; [|done].
    destruct (render_title t (budgetDisplayName ev)) as [title|x]; [|done].
    destruct (check_returns e key w Hc) as [v Hv].
    destruct (check_to_notify_per_month e key w) as [r w1]. cbn [fst] in Hv.
    subst r. by destruct v as [[]|].
Qed.

Lemma unhandled_threshold_sends_nothing_witness :
  teams (subscribe repr_whole_float (healthy mar_15) half_event empty_world).2 = []
  ∧ (subscribe repr_whole_float (healthy mar_15) half_event empty_world).1 = Ok tt.
Proof.
  pose proof (unhandled_threshold_sends_nothing repr_whole_float (healthy mar_15)
                half_event empty_world (Float f0_5) eq_refl eq_refl eq_refl) as [H1 H2].
  split; [exact H1 | exact (H2 eq_refl eq_refl eq_refl)].
Defined.

(** C8: an alert whose threshold is neither [0.75] nor [1.0] still runs the
    throttle: nothing is posted, yet the record of the project is created
    when absent and overwritten when of an earlier month, with the current
    instant; and then no alert for the same project, whatever its threshold,
    is posted at a later call of the same Bangkok calendar month. *)
Theorem unhandled_threshold_consumes_month
    (repr : spec_float → string) (e1 : env) (ev1 : event) (w : world)
    (t : number) (key title : string) :
  alertThresholdExceeded ev1 = Some t →
  Num.eqb t (Float f0_75) = false →
  Num.eqb t (Float f1_0) = false →
  get_alert_name (budgetDisplayName ev1) = Ok key →
  render_title t (budgetDisplayName ev1) = Ok title →
  store_available e1 = true →
  let w1 := (subscribe repr e1 ev1 w).2 in
  teams w1 = teams w
  ∧ (firestore w !! key = None →
     firestore w1 !! key = Some {[ "last_noti" := clock e1 ]})
  ∧ (∀ data last,
        firestore w !! key = Some data → data !! "last_noti" = Some last →
        has_one_month_passed (now_bangkok (clock e1)) (now_bangkok last) = true →
        firestore w1 !! key = Some (<["last_noti" := clock e1]> data))
  ∧ (∀ e2 ev2,
        get_alert_name (budgetDisplayName ev2) = Ok key →
        year (now_bangkok (clock e2)) = year (now_bangkok (clock e1)) →
        month (now_bangkok (clock e2)) = month (now_bangkok (clock e1)) →
        teams (subscribe repr e2 ev2 w1).2 = teams w1).
Proof.
  intros Ht H75 H100 Hkey Htitle Hav. cbv zeta.
  rewrite (subscribe_unhandled repr e1 ev1 w t key title) by done.
  split; [apply check_teams|]. split; [|split].
  - intros Hnone. rewrite check_fresh by done. cbn [snd firestore].
    apply lookup_insert_eq.
  - intros data last Hdoc Hfield Hroll. erewrite check_rolled by done.
    cbn [snd firestore]. apply lookup_insert_eq.
  - intros e2 ev2 Hkey2 Hy Hm. apply subscribe_silent.
    intros key2 Hkey2'. assert (key2 = key) as -> by congruence.
    eapply settled_suppresses; [by apply check_settles | done | done].
Qed.

Lemma unhandled_threshold_consumes_month_witness :
  let w1 := (subscribe repr_whole_float (healthy mar_15) half_event empty_world).2 in
  firestore w1 !! "proj-x" = Some {[ "last_noti" := mar_15 ]}
  ∧ teams (subscribe repr_whole_float (healthy mar_15_later) proj_x_event w1).2 = [].
Proof.
  pose proof (unhandled_threshold_consumes_month repr_whole_float (healthy mar_15)
                half_event empty_world (Float f0_5) "proj-x"
                "💸 Cost reaches 50% from proj-x-bigquery-notification"
                eq_refl eq_refl eq_refl eq_refl eq_refl eq_refl)
    as (Hteams & Hnew & _ & Hlater).
  split.
  - exact (Hnew eq_refl).
  - rewrite (Hlater (healthy mar_15_later) proj_x_event eq_refl eq_refl eq_refl).
    exact Hteams.
Defined.

(** C6: the alert [{costAmount: 120, budgetAmount: 100, budgetDisplayName:
    "proj-x-bigquery-notification", alertThresholdExceeded: 0.75}], met with
    no record for [proj-x] and the store available, is for the project
    [proj-x] and posts one card, in the colour of the 0.75 branch, whose
    title contains [75%]; afterwards the record of [proj-x] holds the
    instant of the call. *)
Theorem proj_x_scenario (repr : spec_float → string) (e : env) (w : world) :
  store_available e = true →
  firestore w !! "proj-x" = None →
  let w' := (subscribe repr e proj_x_event w).2 in
  get_alert_name (budgetDisplayName proj_x_event) = Ok "proj-x"
  ∧ (∃ card,
        teams w' = (teams w ++ [card])%list
        ∧ themeColor card = red_code
        ∧ contains "75%" (summary card) = true
        ∧ activityTitle card = summary card)
  ∧ firestore w' !! "proj-x" = Some {[ "last_noti" := clock e ]}.
Proof.
  intros Hav Hnone. cbv zeta. split; [reflexivity|].
  rewrite (subscribe_notifies repr e proj_x_event w (Float f0_75) "proj-x"
             "💸 Cost reaches 75% from proj-x-bigquery-notification" _
             eq_refl eq_refl eq_refl (check_fresh e "proj-x" w Hav Hnone) eq_refl).
  cbn [teams firestore]. split.
  - eexists. repeat split.
  - apply lookup_insert_eq.
Qed.

Lemma proj_x_scenario_witness :
  firestore (subscribe repr_whole_float (healthy mar_15) proj_x_event empty_world).2
    !! "proj-x" = Some {[ "last_noti" := mar_15 ]}.
Proof.
  apply (proj_x_scenario repr_whole_float (healthy mar_15) empty_world); reflexivity.
Defined.

(** C4, as the code has it: an alert without a threshold, within budget and
    with a label that contains the marker, makes [subscribe] return normally
    and leaves the world (records and cards) as it was. *)
Theorem no_threshold_within_budget_no_action
    (repr : spec_float → string) (e : env) (ev : event) (w : world) :
  alertThresholdExceeded ev = None →
  Num.le (costAmount ev) (budgetAmount ev) = true →
  occurs marker (budgetDisplayName ev) →
  subscribe repr e ev w = (Ok tt, w).
Proof.
  intros Ht Hle Hocc. subscribe_unfold.
  destruct (get_alert_name_occurs _ Hocc) as [key Hkey].
  by rewrite Hkey, Ht, Hle.
Qed.

Lemma no_threshold_within_budget_no_action_witness :
  subscribe repr_whole_float (healthy mar_15)
            (quiet_event "proj-x-bigquery-notification") empty_world
  = (Ok tt, empty_world).
Proof.
  apply (no_threshold_within_budget_no_action repr_whole_float (healthy mar_15)
           (quiet_event "proj-x-bigquery-notification") empty_world);
    [reflexivity | reflexivity |].
  apply contains_occurs. vm_compute. reflexivity.
Defined.

(** C4, as stated, fails: the label is resolved before the threshold is
    looked at, so an alert without a threshold and within budget whose label
    lacks the marker ends in [InvalidAlertNameException]. *)
Lemma no_threshold_bad_label_raises :
  alertThresholdExceeded (quiet_event "no-marker-here") = None
  ∧ Num.le (costAmount (quiet_event "no-marker-here"))
           (budgetAmount (quiet_event "no-marker-here")) = true
  ∧ subscribe repr_whole_float (healthy mar_15) (quiet_event "no-marker-here") empty_world
    = (Raise (InvalidAlertNameException "no-marker-here"), empty_world).
Proof. repeat split. Qed.

(** C2, what the code does instead: when a Firestore read or write fails
    inside [check_to_notify_per_month], the handler at line 141 catches the
    error and the function hands back [None]; [subscribe] takes that for
    "do not notify" and returns normally, with nothing posted and nothing
    recorded.  The failure does not reach the caller. *)
Theorem store_failure_is_swallowed
    (repr : spec_float → string) (e : env) (ev : event) (w : world)
    (t : number) (key title : string) :
  alertThresholdExceeded ev = Some t →
  get_alert_name (budgetDisplayName ev) = Ok key →
  render_title t (budgetDisplayName ev) = Ok title →
  client_ok e = true →
  store_fails e key w →
  check_to_notify_per_month e key w = (Ok None, w)
  ∧ subscribe repr e ev w = (Ok tt, w).
Proof.
  intros Ht Hkey Htitle Hc Hfail.
  assert (check_to_notify_per_month e key w = (Ok None, w)) as Hcheck.
  { throttle_unfold. rewrite Hc.
    destruct Hfail as [Hg|(Hg & Hw & [Hnone|(data & last & Hdoc & Hfield & Hroll)])];
      rewrite Hg; [done| |].
    - by rewrite Hnone, Hw.
    - by rewrite Hdoc, Hfield, convert_to_timestamp_with_bkk_utc, Hroll, Hw. }
  split; [done|].
  subscribe_unfold. by rewrite Hkey, Ht, Htitle, Hcheck.
Qed.

Lemma store_failure_is_swallowed_witness :
  subscribe repr_whole_float (read_outage mar_15) proj_x_event empty_world
  = (Ok tt, empty_world)
  ∧ subscribe repr_whole_float (write_outage mar_15) proj_x_event empty_world
    = (Ok tt, empty_world).
Proof.
  split.
  - apply (store_failure_is_swallowed repr_whole_float (read_outage mar_15) proj_x_event
             empty_world (Float f0_75) "proj-x"
             "💸 Cost reaches 75% from proj-x-bigquery-notification");
      [reflexivity | reflexivity | reflexivity | reflexivity |].
    left. reflexivity.
  - apply (store_failure_is_swallowed repr_whole_float (write_outage mar_15) proj_x_event
             empty_world (Float f0_75) "proj-x"
             "💸 Cost reaches 75% from proj-x-bigquery-notification");
      [reflexivity | reflexivity | reflexivity | reflexivity |].
    right. split; [reflexivity|]. split; [reflexivity|]. left. reflexivity.
Defined.

(** ** More on label resolution *)
Module LabelFacts.

Lemma str_app_cons x (a b : string) : String x a +:+ b = String x (a +:+ b).
Proof. reflexivity. Qed.

Lemma str_app_assoc (a b c : string) : (a +:+ b) +:+ c = a +:+ (b +:+ c).
Proof.
  induction a as [|x a IH]; [done|]. by rewrite !str_app_cons, IH.
Qed.

Lemma str_length_app (a b : string) :
  String.length (a +:+ b) = (String.length a + String.length b)%nat.
Proof.
  induction a as [|x a IH]; [done|]. rewrite str_app_cons. cbn [String.length].
  by rewrite IH.
Qed.

(** What a successful resolution says about the label. *)
Lemma get_alert_name_inv label key :
  get_alert_name label = Ok key →
  ∃ post, label = key +:+ marker +:+ post
          ∧ first_occurrence marker label (String.length key).
Proof.
  unfold get_alert_name. destruct (contains marker label) eqn:Hc; [|done].
  unfold contains in Hc. apply bool_decide_eq_true in Hc as [i Hi].
  unfold split. cbn [marker split_from]. fold marker. rewrite Hi.
  cbn [lookup list_lookup]. intros [= <-].
  apply find_Some in Hi. pose proof Hi as [(pre & post & Heq & Hlen) _].
  subst i label. rewrite take_app. by exists post.
Qed.

(** An occurrence inside the resolved name would be an earlier occurrence
    in the label. *)
Lemma first_occurrence_prefix_free sub pre post :
  first_occurrence sub (pre +:+ sub +:+ post) (String.length pre) →
  sub ≠ "" → ¬ occurs sub pre.
Proof.
  intros [_ Hmin] Hsub [j (p & q & Hpre & Hlen)].
  assert (occurs_at sub (pre +:+ sub +:+ post) j) as Hocc.
  { exists p, (q +:+ sub +:+ post). split; [|done].
    rewrite Hpre at 1. by rewrite !str_app_assoc. }
  apply Hmin in Hocc. apply (f_equal String.length) in Hpre.
  rewrite !str_length_app in Hpre.
  destruct sub; [done|]. simpl in Hpre. lia.
Qed.

Lemma startswith_peel m k s :
  startswith m (k +:+ s) = true → (String.length k ≤ String.length m)%nat →
  startswith (drop (String.length k) m) s = true.
Proof.
  revert m. induction k as [|a k IH]; intros m Hsw Hlen; simpl in *.
  - by destruct m.
  - destruct m as [|b m]; simpl in *; [lia|].
    case_decide; [|done]. apply IH; [done | lia].
Qed.

Lemma startswith_within p m rest :
  startswith p (m +:+ rest) = true → (String.length p ≤ String.length m)%nat →
  startswith p m = true.
Proof.
  revert m. induction p as [|a p IH]; intros m Hsw Hlen; simpl in *; [done|].
  destruct m as [|b m]; simpl in *; [lia|].
  case_decide; [|done]. apply IH; [done | lia].
Qed.

Lemma startswith_long m k s :
  startswith m (k +:+ s) = true → (String.length m ≤ String.length k)%nat →
  startswith m k = true.
Proof.
  revert k. induction m as [|a m IH]; intros k Hsw Hlen; simpl in *; [done|].
  destruct k as [|b k]; simpl in *; [lia|].
  case_decide; [|done]. apply IH; [done | lia].
Qed.

Lemma length_drop_le n s : (String.length (drop n s) ≤ String.length s)%nat.
Proof. rewrite length_drop. lia. Qed.

(** The marker has no border: no proper, non-empty end of it is also a
    beginning of it.  So two occurrences of the marker never overlap. *)
Lemma marker_borderless n :
  (0 < n < String.length marker)%nat → startswith (drop n marker) marker = false.
Proof.
  intros Hn. cbn in Hn.
  do 22 (destruct n as [|n]; [first [lia | reflexivity]|]). lia.
Qed.

Lemma find_unfold sub s :
  find sub s = if startswith sub s then Some 0%nat
               else match s with
                    | EmptyString => None
                    | String _ s' => S <$> find sub s'
                    end.
Proof. by destruct s. Qed.

Lemma find_after_clean_prefix key rest :
  ¬ occurs marker key →
  find marker (key +:+ marker +:+ rest) = Some (String.length key).
Proof.
  induction key as [|a key IH]; intros Hclean; rewrite find_unfold.
  - assert (startswith marker ("" +:+ marker +:+ rest) = true) as ->; [|done].
    apply startswith_app. by exists rest.
  - destruct (startswith marker (String a key +:+ marker +:+ rest)) eqn:Hsw.
    + exfalso.
      destruct (le_lt_dec (String.length marker) (String.length (String a key)))
        as [Hlong|Hshort].
      * apply startswith_long in Hsw; [|done].
        apply Hclean. exists 0%nat. by apply occurs_at_0.
      * pose proof Hsw as Hpeel. apply startswith_peel in Hpeel; [|lia].
        apply startswith_within in Hpeel; [|apply length_drop_le].
        rewrite marker_borderless in Hpeel; [done|].
        split; [cbn [String.length]; lia | exact Hshort].
    + rewrite str_app_cons, IH; [done|]. intros [j Hj]. apply Hclean. exists (S j).
      by apply occurs_at_S.
Qed.

Lemma get_alert_name_find label i :
  find marker label = Some i → get_alert_name label = Ok (take i label).
Proof.
  intros Hfind. unfold get_alert_name, contains.
  rewrite Hfind. rewrite bool_decide_eq_true_2 by eauto.
  unfold split. cbn [marker split_from]. fold marker. by rewrite Hfind.
Qed.

End LabelFacts.
Import LabelFacts.

(** X1: the resolved project name never contains the marker, the label is the
    name followed by the marker, and resolving the name once more fails. *)
Theorem get_alert_name_result_is_clean (label key : string) :
  get_alert_name label = Ok key →
  (∃ post, label = key +:+ marker +:+ post)
  ∧ ¬ occurs marker key
  ∧ get_alert_name key = Raise (InvalidAlertNameException key).
Proof.
  intros (post & Heq & Hfirst)%get_alert_name_inv.
  assert (¬ occurs marker key) as Hclean.
  { rewrite Heq in Hfirst. by apply first_occurrence_prefix_free in Hfirst. }
  split; [by exists post|]. split; [done|]. by apply get_alert_name_Raise.
Qed.

Lemma get_alert_name_result_is_clean_witness :
  get_alert_name "mils-project" = Raise (InvalidAlertNameException "mils-project").
Proof.
  apply (get_alert_name_result_is_clean "mils-project-bigquery-notification" "mils-project").
  reflexivity.
Defined.

(** X2: the naming convention round-trips.  A project name that does not
    contain the marker is recovered from the name followed by the marker and
    by anything at all. *)
Theorem get_alert_name_round_trip (project rest : string) :
  ¬ occurs marker project →
  get_alert_name (project +:+ marker +:+ rest) = Ok project.
Proof.
  intros Hclean.
  rewrite (get_alert_name_find _ _ (find_after_clean_prefix project rest Hclean)).
  by rewrite take_app.
Qed.

Lemma get_alert_name_round_trip_witness :
  get_alert_name ("team-a" +:+ marker +:+ "-eu-bigquery-notification") = Ok "team-a".
Proof.
  apply (get_alert_name_round_trip "team-a" "-eu-bigquery-notification").
  apply find_None. vm_compute. reflexivity.
Defined.

(** ** The calendar follows the clock *)
Module CalendarOrderFacts.
Local Open Scope Z_scope.

Lemma era_scan_step_inv st : era_scan_inv st → era_scan_inv (era_scan_step st).
Proof.
  destruct st as [[doe before] ok]. unfold era_scan_inv, era_scan_step.
  destruct (era_month doe) as [m n] eqn:Hmonth. intros Hinv Hok.
  apply andb_true_iff in Hok as [Hok Hstep].
  apply andb_true_iff in Hok as [Hok Hhi].
  apply andb_true_iff in Hok as [Hok Hm12].
  apply andb_true_iff in Hok as [Hok Hm1].
  destruct (Hinv Hok) as [Hbefore Hdays].
  assert (era_month_number doe = n) as Hn by (unfold era_month_number; by rewrite Hmonth).
  split; [lia|]. intros j Hj.
  destruct (Z.eq_dec j doe) as [->|Hne].
  - rewrite Hmonth, Hn. cbn [fst]. repeat split; try lia.
    intros i Hi. destruct (Z.eq_dec i doe) as [->|Hne]; [lia|].
    destruct (Hdays i ltac:(lia)) as (_ & _ & Hle & _). lia.
  - destruct (Hdays j ltac:(lia)) as (Hm & Hb & Hle & Hmono).
    repeat split; try lia. exact Hmono.
Qed.

(** The scan of a whole era, by evaluation. *)
Lemma era_scanned : era_scan 146097 = (146097, 4802, true).
Proof. vm_cast_no_check (eq_refl (146097, 4802, true)%Z). Qed.

Lemma era_month_facts doe :
  0 <= doe < 146097 →
  1 <= (era_month doe).1 <= 12
  ∧ 3 <= era_month_number doe <= 4802
  ∧ ∀ i, 0 <= i <= doe → era_month_number i <= era_month_number doe.
Proof.
  intros Hdoe.
  assert (era_scan_inv (era_scan 146097)) as Hinv.
  { unfold era_scan. apply Pos.iter_invariant.
    - intros st. apply era_scan_step_inv.
    - intros _. split; [lia|]. intros j Hj. lia. }
  rewrite era_scanned in Hinv. destruct (Hinv eq_refl) as [_ Hdays].
  destruct (Hdays doe Hdoe) as (Hm & Hb & _ & Hmono). done.
Qed.

Lemma era_month_number_bounds doe :
  0 <= doe < 146097 → 3 <= era_month_number doe <= 4802.
Proof. intros Hdoe. by destruct (era_month_facts doe Hdoe) as (_ & ? & _). Qed.

Lemma era_month_number_mono a b :
  0 <= a → a <= b → b < 146097 → era_month_number a <= era_month_number b.
Proof.
  intros Ha Hab Hb. destruct (era_month_facts b ltac:(lia)) as (_ & _ & Hmono).
  apply Hmono. lia.
Qed.

(** The month count of a day number, through its era. *)
Lemma civil_month_number z y m d :
  civil_from_days z = (y, m, d) →
  1 <= m <= 12
  ∧ 12 * y + m
    = 4800 * ((z + 719468) / 146097) + era_month_number ((z + 719468) mod 146097).
Proof.
  unfold civil_from_days, era_month_number.
  pose proof (Z.mod_pos_bound (z + 719468) 146097 ltac:(lia)) as Hdoe.
  destruct (era_month_facts _ Hdoe) as (Hm & _ & _). revert Hm. unfold era_month.
  destruct (date_in_era ((z + 719468) mod 146097)) as [[yoe m'] d'] eqn:Hsplit.
  cbn [fst snd]. intros Hm [= <- <- <-].
  split; [done|]. destruct (m' <=? 2); lia.
Qed.

Lemma civil_month_number_mono z1 z2 y1 m1 d1 y2 m2 d2 :
  z1 <= z2 →
  civil_from_days z1 = (y1, m1, d1) → civil_from_days z2 = (y2, m2, d2) →
  12 * y1 + m1 <= 12 * y2 + m2.
Proof.
  intros Hle (_ & ->)%civil_month_number (_ & ->)%civil_month_number.
  pose proof (Z.mod_pos_bound (z1 + 719468) 146097 ltac:(lia)) as Hd1.
  pose proof (Z.mod_pos_bound (z2 + 719468) 146097 ltac:(lia)) as Hd2.
  pose proof (era_month_number_bounds _ Hd1) as Hb1.
  pose proof (era_month_number_bounds _ Hd2) as Hb2.
  pose proof (Z.div_le_mono (z1 + 719468) (z2 + 719468) 146097 ltac:(lia) ltac:(lia))
    as Hera.
  destruct (Z.eq_dec ((z1 + 719468) / 146097) ((z2 + 719468) / 146097)) as [Heq|Hne].
  - rewrite Heq. apply Z.add_le_mono_l. apply era_month_number_mono; [lia| |lia].
    pose proof (Z.div_mod (z1 + 719468) 146097 ltac:(lia)).
    pose proof (Z.div_mod (z2 + 719468) 146097 ltac:(lia)). lia.
  - lia.
Qed.

Lemma of_instant_month offset t :
  1 <= month (of_instant offset t) <= 12.
Proof.
  unfold of_instant.
  destruct (civil_from_days _) as [[y m] d] eqn:Hciv. cbn [month].
  by apply civil_month_number in Hciv as [? _].
Qed.

Lemma bangkok_offset_mono t1 t2 : t1 <= t2 → bangkok_offset t1 <= bangkok_offset t2.
Proof.
  intros Hle. unfold bangkok_offset.
  destruct (Z.ltb_spec t1 (-1570084924 * us_per_second));
    destruct (Z.ltb_spec t2 (-1570084924 * us_per_second)); lia.
Qed.

(** The Bangkok calendar follows the clock: a later instant is never in an
    earlier month. *)
Lemma month_number_now_bangkok_mono t1 t2 :
  t1 <= t2 → month_number (now_bangkok t1) <= month_number (now_bangkok t2).
Proof.
  intros Hle. unfold month_number, now_bangkok, of_instant.
  pose proof (bangkok_offset_mono t1 t2 Hle) as Hoff.
  destruct (civil_from_days ((t1 + _) / _)) as [[y1 m1] d1] eqn:H1.
  destruct (civil_from_days ((t2 + _) / _)) as [[y2 m2] d2] eqn:H2.
  cbn [year month].
  eapply civil_month_number_mono; [|exact H1|exact H2].
  apply Z.div_le_mono; unfold us_per_day, us_per_second in *; lia.
Qed.

Lemma has_one_month_passed_month_number a b :
  1 <= month a <= 12 → 1 <= month b <= 12 →
  has_one_month_passed a b = true ↔ month_number b < month_number a.
Proof.
  intros Ha Hb. rewrite has_one_month_passed_iff. unfold month_number. lia.
Qed.

Lemma has_one_month_passed_now_bangkok t1 t2 :
  has_one_month_passed (now_bangkok t1) (now_bangkok t2) = true → t2 < t1.
Proof.
  intros Hroll.
  apply has_one_month_passed_month_number in Hroll; [|apply of_instant_month..].
  destruct (Z_lt_ge_dec t2 t1) as [|Hge]; [done|].
  pose proof (month_number_now_bangkok_mono t1 t2 ltac:(lia)). lia.
Qed.

End CalendarOrderFacts.

(** ** One invocation and many *)
Module DeliveryFacts.

Lemma subscribe_outcome_holds repr e ev w :
  subscribe_outcome repr e ev w (subscribe repr e ev w).2.
Proof.
  subscribe_unfold.
  destruct (get_alert_name (budgetDisplayName ev)) as [key|x] eqn:Hkey;
    [|apply subscribe_quiet].
  destruct (alertThresholdExceeded ev) as [t|] eqn:Ht;
    [|destruct (Num.le _ _); apply subscribe_quiet].
  destruct (render_title t (budgetDisplayName ev)) as [title|x] eqn:Htitle;
    [|apply subscribe_quiet].
  pose proof (subscribe_throttled repr e ev w key Hkey) as Hthrottled.
  pose proof (subscribe_posted repr e ev w key t title Hkey Ht) as Hposted.
  destruct (check_to_notify_per_month e key w) as [[[[]|]|x] w1];
    cbn [fst snd truthy] in *; try exact Hthrottled.
  destruct (Num.eqb t (Float f0_75)) eqn:H75.
  { destruct (post_status e); apply Hposted; auto. }
  destruct (Num.eqb t (Float f1_0)) eqn:H100; [|exact Hthrottled].
  destruct (post_status e); apply Hposted; auto.
Qed.

Lemma check_idle_world e key w :
  (check_to_notify_per_month e key w).1 ≠ Ok (Some true) →
  (check_to_notify_per_month e key w).2 = w.
Proof.
  intros Hne.
  by destruct (check_to_notify_per_month_outcome e key w).
Qed.

Lemma check_true_settles e key w :
  (check_to_notify_per_month e key w).1 = Ok (Some true) →
  ∃ data, firestore (check_to_notify_per_month e key w).2 !! key = Some data
          ∧ data !! "last_noti" = Some (clock e).
Proof.
  intros Htrue.
  destruct (check_to_notify_per_month_outcome e key w)
    as [Hnone|data last Hdoc Hfield Hroll|r Hr]; [| |done]; cbn [firestore].
  - eexists. rewrite lookup_insert_eq. split; [done|]. apply lookup_singleton_eq.
  - eexists. rewrite lookup_insert_eq. split; [done|]. apply lookup_insert_eq.
Qed.

Lemma recorded_now_settled e key w data :
  firestore w !! key = Some data → data !! "last_noti" = Some (clock e) →
  settled e key w.
Proof.
  intros Hdoc Hfield. exists data. split; [done|].
  intros last. rewrite Hfield. intros [= <-]. apply has_one_month_passed_refl.
Qed.

Lemma same_month_sym e1 e2 : same_month e1 e2 → same_month e2 e1.
Proof. intros [Hy Hm]. by split. Qed.

Lemma settled_same_month e1 e2 key w :
  same_month e2 e1 → settled e1 key w → settled e2 key w.
Proof.
  intros [Hy Hm] (data & Hdoc & Hnot). exists data. split; [done|].
  intros last Hfield.
  rewrite (has_one_month_passed_same_month _ (now_bangkok (clock e1))) by done.
  by apply Hnot.
Qed.

(** In a settled month an invocation for the project changes nothing. *)
Lemma subscribe_settled repr e1 e2 ev key w :
  settled e1 key w → same_month e2 e1 →
  get_alert_name (budgetDisplayName ev) = Ok key →
  (subscribe repr e2 ev w).2 = w.
Proof.
  intros Hset [Hy Hm] Hkey.
  assert ((check_to_notify_per_month e2 key w).1 ≠ Ok (Some true)) as Hne
    by by eapply settled_suppresses.
  destruct (subscribe_outcome_holds repr e2 ev w)
    as [|key' Hkey'|key' t title Hkey' _ _ _ Htrue]; [done| |].
  - assert (key' = key) as -> by congruence. by apply check_idle_world.
  - assert (key' = key) as -> by congruence. done.
Qed.

Lemma deliver_settled repr e1 key calls w :
  settled e1 key w →
  Forall (λ c, get_alert_name (budgetDisplayName c.2) = Ok key ∧ same_month c.1 e1) calls →
  deliver repr calls w = w.
Proof.
  intros Hset Hcalls. induction Hcalls as [|[e ev] calls [Hkey Hsame] _ IH]; [done|].
  cbn [deliver]. cbn [fst snd] in *.
  by rewrite (subscribe_settled repr e1 e ev key w).
Qed.

(** One invocation: either no card, or one card and a settled month. *)
Lemma subscribe_step repr e ev key w :
  get_alert_name (budgetDisplayName ev) = Ok key →
  teams (subscribe repr e ev w).2 = teams w
  ∨ (length (teams (subscribe repr e ev w).2) = S (length (teams w))
     ∧ settled e key (subscribe repr e ev w).2).
Proof.
  intros Hkey.
  destruct (subscribe_outcome_holds repr e ev w)
    as [|key' Hkey'|key' t title Hkey' _ _ _ Htrue].
  - by left.
  - left. apply check_teams.
  - right. assert (key' = key) as -> by congruence.
    cbn [teams]. rewrite length_app, check_teams. cbn [length]. split; [lia|].
    destruct (check_true_settles e key w Htrue) as (data & Hdoc & Hfield).
    by eapply recorded_now_settled.
Qed.

(** The whole of [subscribe] on a [True] from the throttle at [0.75] or
    [1.0]. *)
Lemma subscribe_on_true repr e ev w t key title :
  alertThresholdExceeded ev = Some t →
  Num.eqb t (Float f0_75) = true ∨ Num.eqb t (Float f1_0) = true →
  get_alert_name (budgetDisplayName ev) = Ok key →
  render_title t (budgetDisplayName ev) = Ok title →
  (check_to_notify_per_month e key w).1 = Ok (Some true) →
  subscribe repr e ev w
  = (match post_status e with
     | Some _ => Ok tt
     | None => Raise RequestException
     end,
     {| firestore := firestore (check_to_notify_per_month e key w).2;
        teams := teams w ++
                 [card_of e title
                    (render_content repr (budgetDisplayName ev)
                                    (costAmount ev) (budgetAmount ev))] |}).
Proof.
  intros Ht Hbranch Hkey Htitle Htrue.
  pose proof (check_teams e key w) as Hteams.
  subscribe_unfold. rewrite Hkey, Ht, Htitle.
  destruct (check_to_notify_per_month e key w) as [r w1]. cbn [fst snd] in *.
  subst r. cbn [truthy]. rewrite <- Hteams.
  destruct (Num.eqb t (Float f0_75)).
  - by destruct (post_status e).
  - destruct Hbranch as [Hb|Hb]; [done|]. rewrite Hb. by destruct (post_status e).
Qed.

End DeliveryFacts.
Import DeliveryFacts.

(** X6: at most one notification per project and calendar month.  However
    many alerts for one project are handled within one Bangkok calendar
    month, in whatever environments (store and webhook failures included),
    at most one card is posted in all. *)
Theorem at_most_one_card_per_month
    (repr : spec_float → string) (key : string) (e0 : env)
    (calls : list (env * event)) (w : world) :
  Forall (λ c, get_alert_name (budgetDisplayName c.2) = Ok key ∧ same_month c.1 e0) calls →
  (length (teams (deliver repr calls w)) ≤ S (length (teams w)))%nat.
Proof.
  intros Hcalls. revert w.
  induction Hcalls as [|[e ev] calls [Hkey Hsame] Hrest IH]; intros w; [cbn; lia|].
  cbn [deliver]. cbn [fst snd] in *.
  destruct (subscribe_step repr e ev key w Hkey) as [Hquiet|[Hone Hset]].
  - specialize (IH (subscribe repr e ev w).2). rewrite Hquiet in IH. exact IH.
  - rewrite (deliver_settled repr e0 key calls); [lia| |done].
    apply (settled_same_month e e0); [by apply same_month_sym | done].
Qed.

Lemma at_most_one_card_per_month_witness :
  length (teams (deliver repr_whole_float
                   [(healthy mar_01, proj_x_event);
                    (healthy mar_15, proj_x_event);
                    (healthy mar_15_later, proj_x_event)] empty_world)) = 1%nat
  ∧ (length (teams (deliver repr_whole_float
                   [(healthy mar_01, proj_x_event);
                    (healthy mar_15, proj_x_event);
                    (healthy mar_15_later, proj_x_event)] empty_world))
     ≤ S (length (teams empty_world)))%nat.
Proof.
  split; [reflexivity|].
  apply (at_most_one_card_per_month repr_whole_float "proj-x" (healthy mar_15)).
  repeat constructor.
Defined.

(** X7: one project through three calls of the throttle: the first call ever
    answers [True]; a call later in the same month answers [False] and
    writes nothing; a call in a later month answers [True] again and moves
    the record to its own instant. *)
Theorem throttle_cycle (e1 e2 e3 : env) (key : string) (w : world) :
  firestore w !! key = None →
  store_available e1 = true →
  client_ok e2 = true → get_ok e2 = true → same_month e2 e1 →
  store_available e3 = true →
  has_one_month_passed (now_bangkok (clock e3)) (now_bangkok (clock e1)) = true →
  let first := check_to_notify_per_month e1 key w in
  let second := check_to_notify_per_month e2 key first.2 in
  let third := check_to_notify_per_month e3 key second.2 in
  first.1 = Ok (Some true)
  ∧ second = (Ok (Some false), first.2)
  ∧ third.1 = Ok (Some true)
  ∧ firestore third.2 !! key = Some {[ "last_noti" := clock e3 ]}.
Proof.
  intros Hnone Hav1 Hc2 Hg2 [Hy Hm] Hav3 Hroll. cbv zeta.
  rewrite (check_fresh e1 key w Hav1 Hnone). cbn [fst snd].
  set (w1 := {| firestore := _; teams := _ |}).
  assert (firestore w1 !! key = Some {[ "last_noti" := clock e1 ]}) as Hdoc
    by apply lookup_insert_eq.
  assert (check_to_notify_per_month e2 key w1 = (Ok (Some false), w1)) as ->.
  { eapply check_same_month; [done | done | exact Hdoc | apply lookup_singleton_eq |].
    rewrite (has_one_month_passed_same_month _ (now_bangkok (clock e1))) by done.
    apply has_one_month_passed_refl. }
  cbn [snd].
  erewrite check_rolled; [|done|exact Hdoc|apply lookup_singleton_eq|done].
  cbn [fst snd firestore].
  repeat split. rewrite lookup_insert_eq. by rewrite insert_singleton_eq.
Qed.

Lemma throttle_cycle_witness :
  (check_to_notify_per_month (healthy mar_15) "proj-x"
     (check_to_notify_per_month (healthy feb_20) "proj-x" empty_world).2).1
  = Ok (Some true).
Proof.
  pose proof (throttle_cycle (healthy feb_20) (healthy feb_20) (healthy mar_15)
                "proj-x" empty_world eq_refl eq_refl eq_refl eq_refl
                (conj eq_refl eq_refl) eq_refl eq_refl) as (_ & Hsecond & Hthird & _).
  cbv zeta in Hsecond, Hthird. rewrite Hsecond in Hthird. exact Hthird.
Defined.

(** X8: at [0.75] and at [1.0] alike (the integer [1] included), a [True]
    from the throttle posts exactly one card: to the configured webhook, in
    [red_code], the title as summary and as activity title, the rendered
    body as subtitle.  The HTTP status of the post is discarded: [subscribe]
    returns normally on any status and raises only if the post itself does. *)
Theorem notify_posts_one_red_card
    (repr : spec_float → string) (e : env) (ev : event) (w : world)
    (t : number) (key title : string) :
  alertThresholdExceeded ev = Some t →
  Num.eqb t (Float f0_75) = true ∨ Num.eqb t (Float f1_0) = true →
  get_alert_name (budgetDisplayName ev) = Ok key →
  render_title t (budgetDisplayName ev) = Ok title →
  (check_to_notify_per_month e key w).1 = Ok (Some true) →
  teams (subscribe repr e ev w).2
  = (teams w ++ [card_of e title
                   (render_content repr (budgetDisplayName ev)
                                   (costAmount ev) (budgetAmount ev))])%list
  ∧ firestore (subscribe repr e ev w).2
    = firestore (check_to_notify_per_month e key w).2
  ∧ (subscribe repr e ev w).1
    = match post_status e with
      | Some _ => Ok tt
      | None => Raise RequestException
      end.
Proof.
  intros Ht Hbranch Hkey Htitle Htrue.
  by rewrite (subscribe_on_true repr e ev w t key title).
Qed.

Lemma notify_posts_one_red_card_witness :
  (subscribe repr_whole_float (healthy mar_15)
     {| costAmount := Int 250; budgetAmount := Int 200;
        budgetDisplayName := "proj-x-bigquery-notification";
        alertThresholdExceeded := Some (Int 1) |} empty_world).1 = Ok tt.
Proof.
  apply (notify_posts_one_red_card repr_whole_float (healthy mar_15)
           {| costAmount := Int 250; budgetAmount := Int 200;
              budgetDisplayName := "proj-x-bigquery-notification";
              alertThresholdExceeded := Some (Int 1) |} empty_world (Int 1) "proj-x"
           "💸 Cost reaches 100% from proj-x-bigquery-notification"
           eq_refl (or_intror eq_refl) eq_refl eq_refl eq_refl).
Defined.



(** ** Failures, frames and orders *)
Module FrameFacts.

Lemma check_frame e key w :
  (∀ key', key' ≠ key →
           firestore (check_to_notify_per_month e key w).2 !! key' = firestore w !! key')
  ∧ (∀ data, firestore w !! key = Some data →
             ∃ data', firestore (check_to_notify_per_month e key w).2 !! key = Some data'
                      ∧ (∀ field, field ≠ "last_noti" → data' !! field = data !! field)
                      ∧ (∀ last last', data !! "last_noti" = Some last →
                                       data' !! "last_noti" = Some last' →
                                       last' = last
                                       ∨ (last' = clock e
                                          ∧ has_one_month_passed (now_bangkok (clock e))
                                                                 (now_bangkok last) = true))).
Proof.
  destruct (check_to_notify_per_month_outcome e key w)
    as [Hnone|data0 last0 Hdoc Hfield Hroll|r Hr]; cbn [firestore].
  - split; [intros key' Hne; by rewrite lookup_insert_ne|]. intros data. by rewrite Hnone.
  - split; [intros key' Hne; by rewrite lookup_insert_ne|].
    intros data. rewrite Hdoc. intros [= <-]. eexists. rewrite lookup_insert_eq.
    split; [done|]. split.
    + intros field Hne. by rewrite lookup_insert_ne.
    + intros last last'. rewrite Hfield, lookup_insert_eq. intros [= <-] [= <-]. by right.
  - split; [done|]. intros data Hdoc. exists data. split; [done|]. split; [done|].
    intros last last' H1 H2. left. congruence.
Qed.

Lemma check_not_true_without_field e key w data :
  firestore w !! key = Some data → data !! "last_noti" = None →
  (check_to_notify_per_month e key w).1 ≠ Ok (Some true).
Proof.
  intros Hdoc Hfield.
  destruct (check_to_notify_per_month_outcome e key w)
    as [Hnone|data0 last0 Hdoc0 Hfield0 Hroll|r Hr]; [congruence| |done].
  congruence.
Qed.

(** The firestore after [subscribe] is the one before or the one the
    throttle left. *)
Lemma subscribe_firestore repr e ev w :
  firestore (subscribe repr e ev w).2 = firestore w
  ∨ ∃ key, get_alert_name (budgetDisplayName ev) = Ok key
           ∧ firestore (subscribe repr e ev w).2
             = firestore (check_to_notify_per_month e key w).2.
Proof.
  destruct (subscribe_outcome_holds repr e ev w)
    as [|key Hkey|key t title Hkey _ _ _ _]; [by left|right..]; by exists key.
Qed.

End FrameFacts.
Import FrameFacts.

(** X10: a failure to build the Firestore client is not caught.  Line 110
    builds the client before the [try], so, unlike a failed read or write,
    this failure leaves [check_to_notify_per_month] as an exception, and
    [subscribe] ends in it with the world untouched. *)
Theorem client_failure_is_not_caught
    (repr : spec_float → string) (e : env) (ev : event) (w : world)
    (t : number) (key title : string) :
  client_ok e = false →
  check_to_notify_per_month e key w = (Raise DefaultCredentialsError, w)
  ∧ (alertThresholdExceeded ev = Some t →
     get_alert_name (budgetDisplayName ev) = Ok key →
     render_title t (budgetDisplayName ev) = Ok title →
     subscribe repr e ev w = (Raise DefaultCredentialsError, w)).
Proof.
  intros Hc. split.
  - throttle_unfold. by rewrite Hc.
  - intros Ht Hkey Htitle. subscribe_unfold. rewrite Hkey, Ht, Htitle.
    throttle_unfold. by rewrite Hc.
Qed.

Lemma client_failure_is_not_caught_witness :
  subscribe repr_whole_float
    {| clock := mar_15; webhook_url := "https://teams.example/webhook";
       client_ok := false; get_ok := true; write_ok := true; post_status := Some 200%Z |}
    proj_x_event empty_world
  = (Raise DefaultCredentialsError, empty_world).
Proof.
  apply (proj2 (client_failure_is_not_caught repr_whole_float
           {| clock := mar_15; webhook_url := "https://teams.example/webhook";
              client_ok := false; get_ok := true; write_ok := true;
              post_status := Some 200%Z |}
           proj_x_event empty_world (Float f0_75) "proj-x"
           "💸 Cost reaches 75% from proj-x-bigquery-notification" eq_refl));
    reflexivity.
Defined.

(** X11: a label without the marker fails every alert, with or without a
    threshold, whatever the amounts: [subscribe] raises
    [InvalidAlertNameException] carrying the label before it reads or writes
    anything. *)
Theorem bad_label_fails_every_alert
    (repr : spec_float → string) (e : env) (ev : event) (w : world) :
  ¬ occurs marker (budgetDisplayName ev) →
  subscribe repr e ev w
  = (Raise (InvalidAlertNameException (budgetDisplayName ev)), w).
Proof.
  intros Hno. subscribe_unfold. by rewrite (get_alert_name_Raise _ Hno).
Qed.

Lemma bad_label_fails_every_alert_witness :
  subscribe repr_whole_float (healthy mar_15)
    {| costAmount := Int 120; budgetAmount := Int 100;
       budgetDisplayName := "no-marker-here";
       alertThresholdExceeded := Some (Float f0_75) |} empty_world
  = (Raise (InvalidAlertNameException "no-marker-here"), empty_world).
Proof.
  apply (bad_label_fails_every_alert repr_whole_float (healthy mar_15)
           {| costAmount := Int 120; budgetAmount := Int 100;
              budgetDisplayName := "no-marker-here";
              alertThresholdExceeded := Some (Float f0_75) |} empty_world).
  apply find_None. vm_compute. reflexivity.
Defined.

(** X12: without a threshold nothing ever happens, over budget or not: the
    world is left as it was, and [subscribe] returns normally exactly when
    the label carries the marker. *)
Theorem no_threshold_never_acts
    (repr : spec_float → string) (e : env) (ev : event) (w : world) :
  alertThresholdExceeded ev = None →
  (subscribe repr e ev w).2 = w
  ∧ ((subscribe repr e ev w).1 = Ok tt ↔ occurs marker (budgetDisplayName ev)).
Proof.
  intros Ht. subscribe_unfold. rewrite Ht.
  destruct (get_alert_name (budgetDisplayName ev)) as [key|x] eqn:Hkey.
  - split; [by destruct (Num.le _ _)|]. split.
    + intros _. destruct (contains marker (budgetDisplayName ev)) eqn:Hc;
        [by apply contains_occurs|].
      unfold get_alert_name in Hkey. by rewrite Hc in Hkey.
    + intros _. by destruct (Num.le _ _).
  - split; [done|]. split; [done|].
    intros [pre Hpre]%get_alert_name_occurs. congruence.
Qed.

Lemma no_threshold_never_acts_witness :
  (subscribe repr_whole_float (healthy mar_15)
     {| costAmount := Int 500; budgetAmount := Int 100;
        budgetDisplayName := "proj-x-bigquery-notification";
        alertThresholdExceeded := None |} empty_world).2 = empty_world.
Proof.
  apply (no_threshold_never_acts repr_whole_float (healthy mar_15)
           {| costAmount := Int 500; budgetAmount := Int 100;
              budgetDisplayName := "proj-x-bigquery-notification";
              alertThresholdExceeded := None |} empty_world).
  reflexivity.
Defined.

(** X13: an invocation only ever touches the field [last_noti] of the
    document of its own project.  Every document that existed still exists,
    with all its other fields as they were; the documents of other projects
    are exactly as they were; and the cards posted before are still there,
    in order, followed by at most one more. *)
Theorem subscribe_frame
    (repr : spec_float → string) (e : env) (ev : event) (w : world) :
  (∀ key data,
      firestore w !! key = Some data →
      ∃ data', firestore (subscribe repr e ev w).2 !! key = Some data'
               ∧ (∀ field, field ≠ "last_noti" → data' !! field = data !! field)
               ∧ (get_alert_name (budgetDisplayName ev) ≠ Ok key → data' = data))
  ∧ (∀ key, firestore w !! key = None →
            get_alert_name (budgetDisplayName ev) ≠ Ok key →
            firestore (subscribe repr e ev w).2 !! key = None)
  ∧ (teams (subscribe repr e ev w).2 = teams w
     ∨ ∃ card, teams (subscribe repr e ev w).2 = (teams w ++ [card])%list).
Proof.
  split; [|split].
  - intros key data Hdoc.
    destruct (subscribe_firestore repr e ev w) as [->|(key0 & Hkey0 & ->)];
      [by exists data|].
    destruct (check_frame e key0 w) as [Hother Hown].
    destruct (decide (key = key0)) as [->|Hne].
    + destruct (Hown data Hdoc) as (data' & Hdoc' & Hfields & _).
      exists data'. split; [done|]. split; [done|]. intros Hnot. congruence.
    + exists data. rewrite Hother by done. done.
  - intros key Hnone Hnot.
    destruct (subscribe_firestore repr e ev w) as [->|(key0 & Hkey0 & ->)]; [done|].
    destruct (check_frame e key0 w) as [Hother _].
    rewrite Hother; [done|]. congruence.
  - destruct (subscribe_outcome_holds repr e ev w)
      as [|key Hkey|key t title Hkey _ _ _ _]; [by left| |].
    + left. apply check_teams.
    + right. cbn [teams]. rewrite check_teams. by eexists.
Qed.

Lemma subscribe_frame_witness :
  ∃ data',
    firestore (subscribe repr_whole_float (healthy mar_15) proj_x_event
                 {| firestore := {[ "proj-x" := {[ "last_noti" := feb_20; "owner" := 7%Z ]};
                                    "proj-y" := {[ "last_noti" := feb_20 ]} ]};
                    teams := [] |}).2 !! "proj-x" = Some data'
    ∧ (∀ field, field ≠ "last_noti" →
                data' !! field
                = ({[ "last_noti" := feb_20; "owner" := 7%Z ]} : gmap string Z) !! field)
    ∧ (get_alert_name (budgetDisplayName proj_x_event) ≠ Ok "proj-x" →
       data' = {[ "last_noti" := feb_20; "owner" := 7%Z ]}).
Proof.
  apply (proj1 (subscribe_frame repr_whole_float (healthy mar_15) proj_x_event
                  {| firestore := {[ "proj-x" := {[ "last_noti" := feb_20; "owner" := 7%Z ]};
                                     "proj-y" := {[ "last_noti" := feb_20 ]} ]};
                     teams := [] |})
           "proj-x" {[ "last_noti" := feb_20; "owner" := 7%Z ]}).
  reflexivity.
Defined.

(** X14: a document without the field [last_noti] silences its project for
    good.  Reading the field raises [KeyError], the handler swallows it, and
    every alert for the project, in any environment and at any time, leaves
    the world exactly as it was. *)
Theorem record_without_last_noti_is_silent
    (repr : spec_float → string) (key : string) (data : gmap string Z)
    (calls : list (env * event)) (w : world) :
  firestore w !! key = Some data →
  data !! "last_noti" = None →
  Forall (λ c, get_alert_name (budgetDisplayName c.2) = Ok key) calls →
  deliver repr calls w = w.
Proof.
  intros Hdoc Hfield Hcalls.
  induction Hcalls as [|[e ev] calls Hkey _ IH]; [done|].
  cbn [deliver]. cbn [snd] in Hkey.
  assert ((subscribe repr e ev w).2 = w) as ->; [|done].
  pose proof (check_not_true_without_field e key w data Hdoc Hfield) as Hne.
  destruct (subscribe_outcome_holds repr e ev w)
    as [|key' Hkey'|key' t title Hkey' _ _ _ Htrue]; [done| |].
  - assert (key' = key) as -> by congruence. by apply check_idle_world.
  - assert (key' = key) as -> by congruence. done.
Qed.

Lemma record_without_last_noti_is_silent_witness :
  deliver repr_whole_float
    [(healthy feb_20, proj_x_event); (healthy mar_15, proj_x_event)]
    {| firestore := {[ "proj-x" := {[ "owner" := 7%Z ]} ]}; teams := [] |}
  = {| firestore := {[ "proj-x" := {[ "owner" := 7%Z ]} ]}; teams := [] |}.
Proof.
  apply (record_without_last_noti_is_silent repr_whole_float "proj-x" {[ "owner" := 7%Z ]});
    [reflexivity | reflexivity | repeat constructor].
Defined.

(** X15: the record of a project never moves back to an earlier month.  For
    any project and any invocation, the month of [last_noti] after the
    invocation is not before its month before: the instant is either kept,
    or replaced by the clock in a later month. *)
Theorem record_month_never_goes_back
    (repr : spec_float → string) (e : env) (ev : event) (w : world)
    (key : string) (data data' : gmap string Z) (last last' : Z) :
  firestore w !! key = Some data → data !! "last_noti" = Some last →
  firestore (subscribe repr e ev w).2 !! key = Some data' →
  data' !! "last_noti" = Some last' →
  has_one_month_passed (now_bangkok last) (now_bangkok last') = false
  ∧ (last' = last ∨ last' = clock e).
Proof.
  intros Hdoc Hfield Hdoc' Hfield'.
  assert (last' = last
          ∨ (last' = clock e
             ∧ has_one_month_passed (now_bangkok (clock e)) (now_bangkok last) = true))
    as [->|[-> Hroll]].
  { destruct (subscribe_firestore repr e ev w) as [Heq|(key0 & Hkey0 & Heq)];
      rewrite Heq in Hdoc'; [left; congruence|].
    destruct (check_frame e key0 w) as [Hother Hown].
    destruct (decide (key = key0)) as [->|Hne].
    - destruct (Hown data Hdoc) as (data0 & Hdoc0 & _ & Hlast).
      assert (data0 = data') as -> by congruence. by eapply Hlast.
    - rewrite Hother in Hdoc' by done. left. congruence. }
  - split; [apply has_one_month_passed_refl | by left].
  - split; [|by right]. apply not_true_is_false. intros Hback.
    apply has_one_month_passed_iff in Hback. apply has_one_month_passed_iff in Hroll.
    lia.
Qed.

Lemma record_month_never_goes_back_witness :
  has_one_month_passed (now_bangkok feb_20) (now_bangkok mar_15) = false.
Proof.
  apply (record_month_never_goes_back repr_whole_float (healthy mar_15) proj_x_event
           (notified_at "proj-x" feb_20) "proj-x"
           {[ "last_noti" := feb_20 ]} {[ "last_noti" := mar_15 ]} feb_20 mar_15);
    reflexivity.
Defined.

(** X16: no card without a record.  If an invocation posts, then its threshold
    is [0.75] or [1.0], it posts exactly one card, and the document of its
    project now carries the current instant in [last_noti]. *)
Theorem card_implies_record
    (repr : spec_float → string) (e : env) (ev : event) (w : world) :
  teams (subscribe repr e ev w).2 ≠ teams w →
  ∃ key t data,
    get_alert_name (budgetDisplayName ev) = Ok key
    ∧ alertThresholdExceeded ev = Some t
    ∧ (Num.eqb t (Float f0_75) = true ∨ Num.eqb t (Float f1_0) = true)
    ∧ length (teams (subscribe repr e ev w).2) = S (length (teams w))
    ∧ firestore (subscribe repr e ev w).2 !! key = Some data
    ∧ data !! "last_noti" = Some (clock e).
Proof.
  intros Hposted.
  destruct (subscribe_outcome_holds repr e ev w)
    as [|key Hkey|key t title Hkey Ht Hbranch _ Htrue]; [done| |].
  - by rewrite check_teams in Hposted.
  - destruct (check_true_settles e key w Htrue) as (data & Hdoc & Hfield).
    exists key, t, data. cbn [teams firestore].
    rewrite length_app, check_teams. cbn [length]. repeat split; try done. lia.
Qed.

Lemma card_implies_record_witness :
  ∃ key t data,
    get_alert_name (budgetDisplayName proj_x_event) = Ok key
    ∧ alertThresholdExceeded proj_x_event = Some t
    ∧ (Num.eqb t (Float f0_75) = true ∨ Num.eqb t (Float f1_0) = true)
    ∧ length (teams (subscribe repr_whole_float (healthy mar_15) proj_x_event empty_world).2)
      = 1%nat
    ∧ firestore (subscribe repr_whole_float (healthy mar_15) proj_x_event empty_world).2
        !! key = Some data
    ∧ data !! "last_noti" = Some mar_15.
Proof.
  apply (card_implies_record repr_whole_float (healthy mar_15) proj_x_event empty_world).
  vm_compute. discriminate.
Defined.


(** X4: [has_one_month_passed] is a strict order with nothing left over:
    it is transitive, and two times neither of which is a month past the
    other have the same year and the same month. *)
Theorem has_one_month_passed_strict_total :
  (∀ a b c, has_one_month_passed a b = true → has_one_month_passed b c = true →
            has_one_month_passed a c = true)
  ∧ (∀ a b, has_one_month_passed a b = false → has_one_month_passed b a = false →
            year a = year b ∧ month a = month b).
Proof.
  split.
  - intros a b c Hab Hbc. apply has_one_month_passed_iff.
    apply has_one_month_passed_iff in Hab. apply has_one_month_passed_iff in Hbc. lia.
  - intros a b Hab Hba.
    apply not_true_iff_false in Hab. apply not_true_iff_false in Hba.
    rewrite has_one_month_passed_iff in Hab, Hba. lia.
Qed.

Lemma has_one_month_passed_strict_total_witness :
  has_one_month_passed (bangkok 2024 3 15 12 0 0) (bangkok 2023 12 31 23 59 59) = true.
Proof.
  apply (proj1 has_one_month_passed_strict_total
           (bangkok 2024 3 15 12 0 0) (bangkok 2024 1 1 0 0 0) (bangkok 2023 12 31 23 59 59));
    reflexivity.
Defined.

(** X5: the throttle never gets ahead of the clock.  On the Bangkok
    calendar a month has passed only between a later instant and an earlier
    one; so when the clock reads no later than the instant on record, the
    answer is [False] and nothing is written. *)
Theorem throttle_respects_clock_order :
  (∀ t1 t2, (t1 <= t2)%Z →
            has_one_month_passed (now_bangkok t1) (now_bangkok t2) = false)
  ∧ (∀ e key w data last,
        client_ok e = true → get_ok e = true →
        firestore w !! key = Some data → data !! "last_noti" = Some last →
        (clock e <= last)%Z →
        check_to_notify_per_month e key w = (Ok (Some false), w)).
Proof.
  assert (∀ t1 t2, (t1 <= t2)%Z →
                   has_one_month_passed (now_bangkok t1) (now_bangkok t2) = false) as Hord.
  { intros t1 t2 Hle. apply not_true_is_false. intros Hroll.
    apply CalendarOrderFacts.has_one_month_passed_now_bangkok in Hroll. lia. }
  split; [exact Hord|].
  intros e key w data last Hc Hg Hdoc Hfield Hle.
  eapply check_same_month; [done..|]. by apply Hord.
Qed.

Lemma throttle_respects_clock_order_witness :
  check_to_notify_per_month (healthy feb_20) "proj-x" (notified_at "proj-x" mar_15)
  = (Ok (Some false), notified_at "proj-x" mar_15).
Proof.
  apply (proj2 throttle_respects_clock_order (healthy feb_20) "proj-x"
           (notified_at "proj-x" mar_15) {[ "last_noti" := mar_15 ]} mar_15);
    [reflexivity | reflexivity | reflexivity | reflexivity |].
  vm_compute. discriminate.
Defined.
